(** * Document context for completions: get-current-doc-context.ts

    A shallow embedding of [vscode/src/completions/get-current-doc-context.ts]
    and the properties its specification states about it.

    - JavaScript strings are sequences of UTF-16 code units: [jsstring] is a
      list of code units, a code unit is a number ([N]).
    - JavaScript numbers are IEEE 754 binary64 values.  Lengths, indices and
      the edit distance are non-negative integers far below 2^53 and are kept
      as [nat] (or [Z] where the code subtracts); the similarity scores are
      genuine fractions and are kept as Rocq's primitive binary64 [float],
      whose operations round exactly as the JavaScript ones do.
    - An exception thrown by the editor API is the [Throws] outcome. *)

From Stdlib Require Import ZArith Lia Floats String Ascii.
From stdpp Require Import base list.

Open Scope nat_scope.

(** ** JavaScript strings *)

Definition code_unit := N.
Abbreviation jsstring := (list code_unit).

(** The code unit U+000A, written ['\n'] in the source. *)
Definition LF : code_unit := 10%N.

(** String literals of this file, as code units. *)
Definition js (s : string) : jsstring :=
  map N_of_ascii (list_ascii_of_string s).

(** A relative index of [String.prototype.slice]: a negative index counts
    from the end, and the result is clamped to [0, len]. *)
Definition slice_index (len : nat) (i : Z) : nat :=
  if (i <? 0)%Z then Z.to_nat (Z.max (Z.of_nat len + i) 0)
  else Nat.min (Z.to_nat i) len.

(** [s.slice(from, to)]. *)
Definition slice (s : jsstring) (from to : Z) : jsstring :=
  let k := slice_index (length s) from in
  let e := slice_index (length s) to in
  take (e - k) (drop k s).

(** [s.slice(from)]. *)
Definition slice_from (s : jsstring) (from : Z) : jsstring :=
  drop (slice_index (length s) from) s.

(** [parts.join(sep)] for a one-unit separator. *)
Fixpoint join (sep : code_unit) (parts : list jsstring) : jsstring :=
  match parts with
  | [] => []
  | [p] => p
  | p :: rest => p ++ sep :: join sep rest
  end.

(** ** JavaScript numbers that are not integers *)

Definition number := float.

(** An integer-valued number, as a binary64 value (exact below 2^53; a
    JavaScript string is never that long). *)
Definition of_nat (n : nat) : number :=
  PrimFloat.of_uint63 (Uint63.of_Z (Z.of_nat n)).

(** [a > b] on numbers: false as soon as one side is NaN. *)
Definition gt (a b : number) : bool := PrimFloat.ltb b a.

(** ** Exceptions *)

Inductive error := IllegalLine.

Inductive outcome (A : Type) : Type :=
| Returns (a : A)
| Throws (e : error).
Arguments Returns {A} a.
Arguments Throws {A} e.

Global Instance outcome_ret : MRet outcome := @Returns.
Global Instance outcome_bind : MBind outcome := λ A B f m,
  match m with
  | Returns a => f a
  | Throws e => Throws e
  end.

(** A [for] loop over the indices in [idxs], threading the loop's variables. *)
Fixpoint for_each {St} (body : St → nat → outcome St) (s : St) (idxs : list nat)
  : outcome St :=
  match idxs with
  | [] => Returns s
  | i :: rest => s' ← body s i; for_each body s' rest
  end.

(** ** levenshteinDistance (lines 87-121) *)

Abbreviation matrix := (list (list nat)).

(** [a[i] = v] on an array: an index inside the array overwrites, the index
    [a.length] appends.  The source writes nowhere else (further out
    JavaScript would leave holes, which a list does not have); that all its
    writes and reads are inside the table is part of [matrix_filled] below. *)
Definition array_set {A} (i : nat) (v : A) (a : list A) : list A :=
  if decide (i < length a) then <[i:=v]> a else a ++ [v].

(** [matrix[i][j]]. *)
Definition cell (m : matrix) (i j : nat) : nat := (m !!! i) !!! j.

(** [matrix[i][j] = v]. *)
Definition cell_set (m : matrix) (i j v : nat) : matrix :=
  <[i := array_set j v (m !!! i)]> m.

(** Lines 97-100: one row of zeroes per index [0 .. text2.length]. *)
Definition init_matrix (len1 len2 : nat) : matrix :=
  foldl (fun m i => array_set i (replicate (len1 + 1) 0) m) [] (seq 0 (len2 + 1)).

(** Lines 105-116: the body of the inner loop. *)
Definition populate_cell (text1 text2 : jsstring) (i j : nat) (m : matrix)
  : matrix :=
  if decide (i = 0) then cell_set m i j j
  else if decide (j = 0) then cell_set m i j i
  else
    let indicator :=
      if decide (text1 !! (j - 1) = text2 !! (i - 1)) then 0 else 1 in
    cell_set m i j
      (Nat.min (Nat.min (cell m (i - 1) j + 1) (cell m i (j - 1) + 1))
               (cell m (i - 1) (j - 1) + indicator)).

(** Lines 103-118. *)
Definition populate_matrix (text1 text2 : jsstring) (m : matrix) : matrix :=
  foldl (fun m i =>
           foldl (fun m j => populate_cell text1 text2 i j m) m
                 (seq 0 (length text1 + 1)))
        m (seq 0 (length text2 + 1)).

Definition levenshteinDistance (text1 text2 : jsstring) : nat :=
  if decide (length text1 = 0) then length text2
  else if decide (length text2 = 0) then length text1
  else
    let m := init_matrix (length text1) (length text2) in
    let m := populate_matrix text1 text2 m in
    cell m (length text2) (length text1).

(** ** semanticSimilarity (lines 81-85) *)

Definition semanticSimilarity (text1 text2 : jsstring) : number :=
  let distance := levenshteinDistance text1 text2 in
  PrimFloat.sub 1
    (PrimFloat.div (of_nat distance)
                   (of_nat (Nat.max (length text1) (length text2)))).

(** ** The editor's documents (the [vscode] API)

    The file works on [vscode.TextDocument], [vscode.Position] and
    [vscode.Range].  They are modelled here after the API's documentation,
    for a document whose line ends are LF: a document is its text, its lines
    are the segments between the line feeds, an offset counts code units
    from the start of the text. *)

Record Position := { line : nat; character : nat }.

Definition isBefore (p q : Position) : bool :=
  (line p <? line q) || ((line p =? line q) && (character p <? character q)).

Record Range := { range_start : Position; range_end : Position }.

(** [new vscode.Range(a, b)]: the two positions are swapped when [b] is
    before [a]. *)
Definition new_Range (a b : Position) : Range :=
  if isBefore b a then {| range_start := b; range_end := a |}
  else {| range_start := a; range_end := b |}.

(** The segments of a text between its line feeds; the last segment is kept
    even when empty, so the text ["a\n"] has the two lines ["a"] and [""]. *)
Fixpoint split_lines (text : jsstring) : list jsstring :=
  match text with
  | [] => [[]]
  | c :: rest =>
      if decide (c = LF) then [] :: split_lines rest
      else match split_lines rest with
           | l :: ls => (c :: l) :: ls
           | [] => [[c]]
           end
  end.

(** [getText] is [document.getText()]. *)
Record TextDocument := { getText : jsstring }.

Definition doc_lines (d : TextDocument) : list jsstring :=
  split_lines (getText d).

Definition lineCount (d : TextDocument) : nat := length (doc_lines d).

(** [document.lineAt(n).text]; the API throws on a line that is not in the
    document. *)
Definition lineAt (d : TextDocument) (n : nat) : outcome jsstring :=
  match doc_lines d !! n with
  | Some l => Returns l
  | None => Throws IllegalLine
  end.

(** The API adjusts a position to the document before it uses it: a line
    past the end becomes the end of the last line, a character past the end
    of its line becomes the end of that line. *)
Definition validatePosition (d : TextDocument) (p : Position) : Position :=
  if decide (lineCount d ≤ line p) then
    {| line := lineCount d - 1;
       character := length (doc_lines d !!! (lineCount d - 1)) |}
  else
    {| line := line p;
       character := Nat.min (character p) (length (doc_lines d !!! line p)) |}.

(** The offset at which line [n] starts: each earlier line counts with its
    line feed. *)
Definition line_start (ls : list jsstring) (n : nat) : nat :=
  foldr (fun l acc => length l + 1 + acc) 0 (take n ls).

(** [document.offsetAt(p)]. *)
Definition offsetAt (d : TextDocument) (p : Position) : nat :=
  let p := validatePosition d p in
  line_start (doc_lines d) (line p) + character p.

(** The position of offset [off], counted from the start of line [n], the
    first of the lines [ls]; past the last line it is the end of that line. *)
Fixpoint position_in (ls : list jsstring) (n off : nat) : Position :=
  match ls with
  | [] => {| line := n; character := 0 |}
  | [l] => {| line := n; character := Nat.min off (length l) |}
  | l :: rest =>
      if decide (off ≤ length l) then {| line := n; character := off |}
      else position_in rest (S n) (off - length l - 1)
  end.

(** [document.positionAt(off)]: the offset is adjusted to the document, a
    negative one to its start and one past the end to its end. *)
Definition positionAt (d : TextDocument) (off : Z) : Position :=
  position_in (doc_lines d) 0 (Z.to_nat (Z.max 0 off)).

(** [document.getText(r)]: the text between the two (adjusted) ends. *)
Definition getTextRange (d : TextDocument) (r : Range) : jsstring :=
  let s := offsetAt d (range_start r) in
  let e := offsetAt d (range_end r) in
  take (e - s) (drop s (getText d)).

Record SelectedCompletionInfo := { range : Range; text : jsstring }.

Record InlineCompletionContext :=
  { selectedCompletionInfo : option SelectedCompletionInfo }.

(** ** The collaborators of ./text-processing and ./detect-multiline *)

(** Modelled from the spec: [lines] of ./text-processing, which is not among
    the sources; the spec gives it as [splitLines(text)], an ordered sequence
    of strings, newline-delimited, preserving empty trailing segments. *)
Definition lines (text : jsstring) : list jsstring := split_lines text.

(** ** getSemanticContextWithinDocument (lines 40-79) *)

Record SemanticContext :=
  { semanticContext : list jsstring; similarityScore : number }.

(** Line 60: [Array.from({ length: k }, (_, idx) => document.lineAt(i + idx).text)]. *)
Definition blockOfLines (d : TextDocument) (i k : nat)
  : outcome (list jsstring) :=
  mapM (fun idx => lineAt d (i + idx)) (seq 0 k).

(** Lines 63-66: the [reduce] over the block. *)
Definition aggregateSimilarityScore (currentLine : jsstring)
    (block : list jsstring) : number :=
  foldl (fun acc l => PrimFloat.add acc (semanticSimilarity currentLine l))
        0%float block.

(** Lines 60-75: the body of the loop, on the loop's two variables
    [mostSimilarContext] and [highestScore]. *)
Definition search_step (d : TextDocument) (currentLine : jsstring) (k : nat)
    (st : SemanticContext * number) (i : nat)
  : outcome (SemanticContext * number) :=
  block ← blockOfLines d i k;
  let score := aggregateSimilarityScore currentLine block in
  if gt score (snd st) then
    Returns ({| semanticContext := block; similarityScore := score |}, score)
  else Returns st.

(** The indices [i = 0; i <= document.lineCount - k; i++]. *)
Definition candidates (d : TextDocument) (k : nat) : list nat :=
  seq 0 (Z.to_nat (Z.of_nat (lineCount d) - Z.of_nat k + 1)).

Definition getSemanticContextWithinDocument (d : TextDocument)
    (position : Position) (k : nat) : outcome SemanticContext :=
  currentLine ← lineAt d (line position);
  st ← for_each (search_step d currentLine k)
         ({| semanticContext := []; similarityScore := 0%float |}, 0%float)
         (candidates d k);
  Returns (fst st).

(** ** getCurrentDocContext (lines 6-38 and 139-219) *)

Module Params.
Record t :=
  { document : TextDocument;
    position : Position;
    maxPrefixLength : Z;
    maxSuffixLength : Z;
    enableExtendedTriggers : bool;
    syntacticTriggers : option bool;
    context : option InlineCompletionContext }.
End Params.

(** The object [docContext] of lines 200-213, before the trigger is added. *)
Module DocContext.
Record t :=
  { prefix : jsstring;
    suffix : jsstring;
    contextRange : Range;
    currentLinePrefix : jsstring;
    currentLineSuffix : jsstring;
    semanticContext : jsstring;
    prevNonEmptyLine : jsstring;
    nextNonEmptyLine : jsstring;
    injectedPrefix : option jsstring }.
End DocContext.

(** The returned object: [docContext] spread, and [multilineTrigger]. *)
Module DocumentContext.
Record t :=
  { prefix : jsstring;
    suffix : jsstring;
    contextRange : Range;
    currentLinePrefix : jsstring;
    currentLineSuffix : jsstring;
    semanticContext : jsstring;
    prevNonEmptyLine : jsstring;
    nextNonEmptyLine : jsstring;
    injectedPrefix : option jsstring;
    multilineTrigger : option jsstring }.
End DocumentContext.

(** The functions imported from ./text-processing and ./detect-multiline
    that are not among the sources.  The file only passes values through
    them, so they are taken as they come: any three functions that return. *)
Class Collaborators :=
  { getPrevNonEmptyLine : jsstring → jsstring;
    getNextNonEmptyLine : jsstring → jsstring;
    detectMultiline :
      DocContext.t → TextDocument → bool → option bool → option jsstring }.

(** Line 146. *)
Definition completePrefix (d : TextDocument) (position : Position) : jsstring :=
  getTextRange d (new_Range {| line := 0; character := 0 |} position).

(** Line 147. *)
Definition completeSuffix (d : TextDocument) (position : Position) : jsstring :=
  getTextRange d
    (new_Range position (positionAt d (Z.of_nat (length (getText d))))).

(** Lines 149-159: the pair of [completePrefixWithContextCompletion] and
    [injectedPrefix]. *)
Definition patch_prefix (completePrefix : jsstring) (position : Position)
    (context : option InlineCompletionContext) : jsstring * option jsstring :=
  match context ≫= selectedCompletionInfo with
  | Some info =>
      let completePrefixWithContextCompletion :=
        slice completePrefix 0
          (Z.of_nat (character (range_start (range info)))
           - Z.of_nat (character position))
        ++ text info in
      let injectedPrefix :=
        slice_from completePrefixWithContextCompletion
                   (Z.of_nat (length completePrefix)) in
      (completePrefixWithContextCompletion,
       if decide (injectedPrefix = []) then None else Some injectedPrefix)
  | None => (completePrefix, None)
  end.

(** Lines 171-177: the loop [for (i = prefixLines.length - 1; i >= 0; i--)]
    with [n = i + 1] iterations left; its value is the final [startLine]. *)
Fixpoint prefix_loop (prefixLines : list jsstring) (maxPrefixLength : Z)
    (n : nat) (total : Z) (startLine : nat) : nat :=
  match n with
  | 0 => startLine
  | S i =>
      let len := Z.of_nat (length (prefixLines !!! i)) in
      if (total + len >? maxPrefixLength)%Z then startLine
      else prefix_loop prefixLines maxPrefixLength i (total + len)%Z i
  end.

(** Lines 167-181. *)
Definition truncate_prefix (offset : nat) (maxPrefixLength : Z)
    (prefixLines : list jsstring) : jsstring :=
  if (Z.of_nat offset >? maxPrefixLength)%Z then
    let startLine :=
      prefix_loop prefixLines maxPrefixLength (length prefixLines) 0
                  (length prefixLines) in
    join LF (drop startLine prefixLines)
  else join LF prefixLines.

(** Lines 188-194: the loop [for (i = 0; i < suffixLines.length; i++)] with
    [n] iterations left; its value is the final [endLine]. *)
Fixpoint suffix_loop (suffixLines : list jsstring) (maxSuffixLength : Z)
    (n i : nat) (totalSuffix : Z) (endLine : nat) : nat :=
  match n with
  | 0 => endLine
  | S n' =>
      let len := Z.of_nat (length (suffixLines !!! i)) in
      if (totalSuffix + len >? maxSuffixLength)%Z then endLine
      else suffix_loop suffixLines maxSuffixLength n' (i + 1)
                       (totalSuffix + len)%Z (i + 1)
  end.

(** Lines 186-195. *)
Definition truncate_suffix (maxSuffixLength : Z) (suffixLines : list jsstring)
  : jsstring :=
  let endLine :=
    suffix_loop suffixLines maxSuffixLength (length suffixLines) 0 0 0 in
  join LF (take endLine suffixLines).

Definition getCurrentDocContext `{Collaborators} (params : Params.t)
  : outcome DocumentContext.t :=
  let document := Params.document params in
  let position := Params.position params in
  let offset := offsetAt document position in
  let completePrefix := completePrefix document position in
  let completeSuffix := completeSuffix document position in
  let '(completePrefixWithContextCompletion, injectedPrefix) :=
    patch_prefix completePrefix position (Params.context params) in
  let prefixLines := lines completePrefixWithContextCompletion in
  let suffixLines := lines completeSuffix in
  let currentLinePrefix := default [] (last prefixLines) in
  let currentLineSuffix := suffixLines !!! 0 in
  let prefix := truncate_prefix offset (Params.maxPrefixLength params) prefixLines in
  semanticContextWithinDoc ← getSemanticContextWithinDocument document position 5;
  let semanticContext := join LF (semanticContext semanticContextWithinDoc) in
  let suffix := truncate_suffix (Params.maxSuffixLength params) suffixLines in
  let prevNonEmptyLine := getPrevNonEmptyLine prefix in
  let nextNonEmptyLine := getNextNonEmptyLine suffix in
  let docContext :=
    {| DocContext.prefix := prefix;
       DocContext.suffix := suffix;
       DocContext.contextRange :=
         new_Range
           (positionAt document (Z.of_nat offset - Z.of_nat (length prefix)))
           (positionAt document (Z.of_nat offset + Z.of_nat (length suffix)));
       DocContext.currentLinePrefix := currentLinePrefix;
       DocContext.currentLineSuffix := currentLineSuffix;
       DocContext.semanticContext := semanticContext;
       DocContext.prevNonEmptyLine := prevNonEmptyLine;
       DocContext.nextNonEmptyLine := nextNonEmptyLine;
       DocContext.injectedPrefix := injectedPrefix |} in
  Returns
    {| DocumentContext.prefix := DocContext.prefix docContext;
       DocumentContext.suffix := DocContext.suffix docContext;
       DocumentContext.contextRange := DocContext.contextRange docContext;
       DocumentContext.currentLinePrefix := DocContext.currentLinePrefix docContext;
       DocumentContext.currentLineSuffix := DocContext.currentLineSuffix docContext;
       DocumentContext.semanticContext := DocContext.semanticContext docContext;
       DocumentContext.prevNonEmptyLine := DocContext.prevNonEmptyLine docContext;
       DocumentContext.nextNonEmptyLine := DocContext.nextNonEmptyLine docContext;
       DocumentContext.injectedPrefix := DocContext.injectedPrefix docContext;
       DocumentContext.multilineTrigger :=
         detectMultiline docContext document
           (Params.enableExtendedTriggers params)
           (Params.syntacticTriggers params) |}.

(** ** What the specification measures against *)

(** One single-character edit: an insertion, a deletion or a substitution,
    anywhere in the string. *)
Inductive edit1 {A} : list A → list A → Prop :=
| edit_insert l c r : edit1 (l ++ r) (l ++ c :: r)
| edit_delete l c r : edit1 (l ++ c :: r) (l ++ r)
| edit_substitute l c c' r : edit1 (l ++ c :: r) (l ++ c' :: r).

(** [edits n a b]: [n] single-character edits, one after the other,
    transform [a] into [b]. *)
Inductive edits {A} : nat → list A → list A → Prop :=
| edits_done a : edits 0 a a
| edits_step n a b c : edit1 a b → edits n b c → edits (S n) a c.

Definition subst_cost `{EqDecision A} (x y : A) : nat :=
  if decide (x = y) then 0 else 1.

(** The textbook recurrence of the edit distance, on the strings themselves
    rather than on a table. *)
Fixpoint ldist `{EqDecision A} (a b : list A) {struct a} : nat :=
  match a with
  | [] => length b
  | x :: a' =>
      (fix go (b : list A) : nat :=
         match b with
         | [] => length a
         | y :: b' =>
             Nat.min (Nat.min (go b' + 1) (ldist a' b + 1))
                     (ldist a' b' + subst_cost x y)
         end) b
  end.

(** An alignment of two strings, read from left to right, with its cost:
    every position is kept or substituted, deleted, or inserted. *)
Inductive alignment `{EqDecision A} : list A → list A → nat → Prop :=
| align_nil : alignment [] [] 0
| align_delete x a b n : alignment a b n → alignment (x :: a) b (S n)
| align_insert y a b n : alignment a b n → alignment a (y :: b) (S n)
| align_subst x y a b n :
    alignment a b n → alignment (x :: a) (y :: b) (n + subst_cost x y).

(** The raw length of a sequence of lines: the sum of the lines' lengths,
    the line feeds between them not counted. *)
Definition raw_length (ls : list jsstring) : Z :=
  foldr (fun l acc => (Z.of_nat (length l) + acc)%Z) 0%Z ls.

(** The specification's forward walk: lines are taken from the first one on
    while the accumulated raw length stays within [cap]; the walk stops at
    the first line that would exceed it. *)
Fixpoint walk_forward (cap total : Z) (ls : list jsstring) : list jsstring :=
  match ls with
  | [] => []
  | l :: rest =>
      let total' := (total + Z.of_nat (length l))%Z in
      if (total' >? cap)%Z then [] else l :: walk_forward cap total' rest
  end.

(** The specification's backward walk: the same from the last line on; the
    lines retained come in their original order. *)
Definition walk_backward (cap : Z) (ls : list jsstring) : list jsstring :=
  reverse (walk_forward cap 0 (reverse ls)).

(** The number of code units a range spans in its document. *)
Definition range_span (d : TextDocument) (r : Range) : Z :=
  (Z.of_nat (offsetAt d (range_end r)) - Z.of_nat (offsetAt d (range_start r)))%Z.

(** The candidate block that starts at line [i], and its aggregate score
    against the line [currentLine]. *)
Definition block_at (d : TextDocument) (i k : nat) : list jsstring :=
  take k (drop i (doc_lines d)).

Definition score_at (d : TextDocument) (currentLine : jsstring) (i k : nat)
  : number :=
  aggregateSimilarityScore currentLine (block_at d i k).

(** The value the table of [levenshteinDistance] is to hold in row [i],
    column [j]: the distance between the first [j] code units of [text1] and
    the first [i] of [text2] (both read from their ends, as the table's
    recurrence peels off last characters). *)
Definition prefix_distance (text1 text2 : jsstring) (i j : nat) : nat :=
  ldist (reverse (take j text1)) (reverse (take i text2)).

(** The table has its full size, and every cell before row [i], column [j]
    (in the order the loops run) holds its value. *)
Definition matrix_filled (text1 text2 : jsstring) (m : matrix) (i j : nat)
  : Prop :=
  length m = length text2 + 1 ∧
  (∀ r, r ≤ length text2 → length (m !!! r) = length text1 + 1) ∧
  (∀ r c, r ≤ length text2 → c ≤ length text1 →
          r < i ∨ (r = i ∧ c < j) →
          cell m r c = prefix_distance text1 text2 r c).

(** The result of the search when nothing was selected. *)
Definition no_match : SemanticContext :=
  {| semanticContext := []; similarityScore := 0%float |}.

(** The loop body of the search on a candidate whose lines are all in the
    document: the block is [block_at], nothing is thrown. *)
Definition search_pick (d : TextDocument) (currentLine : jsstring) (k : nat)
    (st : SemanticContext * number) (i : nat) : SemanticContext * number :=
  let score := score_at d currentLine i k in
  if gt score (snd st) then
    ({| semanticContext := block_at d i k; similarityScore := score |}, score)
  else st.

(** The loop's two variables when candidate [i] is the selected one. *)
Definition held (d : TextDocument) (currentLine : jsstring) (k i : nat)
  : SemanticContext * number :=
  ({| semanticContext := block_at d i k;
      similarityScore := score_at d currentLine i k |},
   score_at d currentLine i k).

(** What the loop's variables hold after the candidates below [n]: either
    nothing scored above 0 and they are untouched, or they hold a candidate
    that scores above 0 and that no candidate below [n] exceeds. *)
Definition scanned (d : TextDocument) (currentLine : jsstring) (k n : nat)
    (st : SemanticContext * number) : Prop :=
  (st = (no_match, 0%float) ∧
   ∀ j, j < n → gt (score_at d currentLine j k) 0%float = false)
  ∨ ∃ i, i < n ∧ st = held d currentLine k i ∧
         gt (score_at d currentLine i k) 0%float = true ∧
         ∀ j, j < n →
              gt (score_at d currentLine j k) (score_at d currentLine i k) = false.

(** A number that is not NaN. *)
Definition is_number (x : number) : Prop := Prim2SF x ≠ S754_nan.

(** Names for the intermediate values of [getCurrentDocContext]. *)
Definition cursor_offset (params : Params.t) : nat :=
  offsetAt (Params.document params) (Params.position params).

Definition pre_cursor_text (params : Params.t) : jsstring :=
  completePrefix (Params.document params) (Params.position params).

Definition post_cursor_text (params : Params.t) : jsstring :=
  completeSuffix (Params.document params) (Params.position params).

(** [completePrefixWithContextCompletion]. *)
Definition patched_prefix (params : Params.t) : jsstring :=
  fst (patch_prefix (pre_cursor_text params) (Params.position params)
                    (Params.context params)).

(** The [selectedCompletionInfo] of the call, when there is one. *)
Definition selected (params : Params.t) : option SelectedCompletionInfo :=
  Params.context params ≫= selectedCompletionInfo.

(** Collaborators that answer nothing, to run the function on examples. *)
Definition silent : Collaborators :=
  {| getPrevNonEmptyLine := fun _ => [];
     getNextNonEmptyLine := fun _ => [];
     detectMultiline := fun _ _ _ _ => None |}.

(** The document with the given lines. *)
Definition document_of (ls : list string) : TextDocument :=
  {| getText := join LF (map js ls) |}.

(** ** Example calls *)

Definition params_of (d : TextDocument) (l c : nat) (maxPrefix maxSuffix : Z)
    (context : option InlineCompletionContext) : Params.t :=
  {| Params.document := d;
     Params.position := {| line := l; character := c |};
     Params.maxPrefixLength := maxPrefix;
     Params.maxSuffixLength := maxSuffix;
     Params.enableExtendedTriggers := false;
     Params.syntacticTriggers := None;
     Params.context := context |}.

(** The suggestion widget offers [t] for the characters [c1 .. c2] of line [l]. *)
Definition selecting (l c1 c2 : nat) (t : string)
  : option InlineCompletionContext :=
  Some {| selectedCompletionInfo :=
            Some {| range := new_Range {| line := l; character := c1 |}
                                       {| line := l; character := c2 |};
                    text := js t |} |}.

(** The five lines of the specification's example. *)
Definition five_lines : TextDocument :=
  document_of ["foo"; "bar"; ""; "foo"; "qux"]%string.

(** The cursor after [ba] on the second of the five lines, with caps of 4. *)
Definition in_five_lines : Params.t := params_of five_lines 1 2 4 4 None.

(** The cursor after the only character of the document [a], while the
    suggestion widget offers [abc] for it. *)
Definition completing_a : Params.t :=
  params_of (document_of ["a"]%string) 0 1 100 100 (selecting 0 0 1 "abc").

(** The cursor at the end of [abcdefgh], past a prefix cap of 3, while the
    suggestion widget offers [ghijkl] for the last two characters. *)
Definition completing_past_cap : Params.t :=
  params_of (document_of ["abcdefgh"]%string) 0 8 3 100
            (selecting 0 6 8 "ghijkl").

(** The cursor at the very start of a document of five equal lines and an
    empty last line. *)
Definition at_document_start : Params.t :=
  params_of (document_of ["ab"; "ab"; "ab"; "ab"; "ab"; ""]%string)
            0 0 100 100 None.

(** The cursor in the empty document. *)
Definition in_empty_document : Params.t :=
  params_of (document_of []) 0 0 100 100 None.

(** ** Further notions for the properties of the whole file *)

(** The number of code units of a string other than line feeds. *)
Definition visible_length (s : jsstring) : nat :=
  length (filter (fun c => c ≠ LF) s).

(** The same call with the cursor at another position. *)
Definition at_position (params : Params.t) (p : Position) : Params.t :=
  {| Params.document := Params.document params;
     Params.position := p;
     Params.maxPrefixLength := Params.maxPrefixLength params;
     Params.maxSuffixLength := Params.maxSuffixLength params;
     Params.enableExtendedTriggers := Params.enableExtendedTriggers params;
     Params.syntacticTriggers := Params.syntacticTriggers params;
     Params.context := Params.context params |}.

(** The same call with other caps. *)
Definition with_caps (params : Params.t) (maxPrefix maxSuffix : Z) : Params.t :=
  {| Params.document := Params.document params;
     Params.position := Params.position params;
     Params.maxPrefixLength := maxPrefix;
     Params.maxSuffixLength := maxSuffix;
     Params.enableExtendedTriggers := Params.enableExtendedTriggers params;
     Params.syntacticTriggers := Params.syntacticTriggers params;
     Params.context := Params.context params |}.

(** The text of the cursor's line, and the cursor's character on it once
    the editor has adjusted it to the line. *)
Definition cursor_line (params : Params.t) : jsstring :=
  doc_lines (Params.document params) !!! line (Params.position params).

Definition cursor_character (params : Params.t) : nat :=
  Nat.min (character (Params.position params)) (length (cursor_line params)).

(** The cursor on the empty third of the five lines. *)
Definition on_empty_line : Params.t := params_of five_lines 2 0 4 4 None.

(** The cursor at the end of the second of the five lines. *)
Definition at_line_end : Params.t := params_of five_lines 1 3 4 4 None.

(** A document of seven lines whose first line is empty. *)
Definition empty_first_line : TextDocument :=
  document_of [""; "a"; "b"; "c"; "d"; "e"; "f"]%string.

(** The cursor in the empty document, while the suggestion widget offers
    [abc]. *)
Definition completing_in_empty_document : Params.t :=
  params_of (document_of []) 0 0 100 100 (selecting 0 0 0 "abc").

(** The cursor after [ba] on the second of the five lines, with caps of 5
    and 7: the six code units before the cursor and the ten after it are
    more than the caps, the raw lengths of their lines are 5 and 7. *)
Definition fitting_by_raw_length : Params.t := with_caps in_five_lines 5 7.

(** * Properties *)

(** ** Loops *)

Lemma foldl_seq_S {St} (f : St → nat → St) (s : St) (n : nat) :
  foldl f s (seq 0 (n + 1)) = f (foldl f s (seq 0 n)) n.
Proof. by rewrite seq_app, foldl_app. Qed.

(** Induction over the runs of a counting loop. *)
Lemma foldl_seq_invariant {St} (P : nat → St → Prop) (f : St → nat → St) s n :
  P 0 s →
  (∀ k s, k < n → P k s → P (k + 1) (f s k)) →
  P n (foldl f s (seq 0 n)).
Proof.
  intros H0 Hstep. induction n as [|n IH]; [done|].
  replace (S n) with (n + 1) by lia. rewrite foldl_seq_S.
  apply Hstep; [lia|]. apply IH. intros k s' Hk. apply Hstep. lia.
Qed.

(** ** The edit distance of the specification *)

Section EditDistance.
Context {A : Type} `{EqDecision A}.
Implicit Types (a b c : list A) (x y z : A).

Lemma ldist_nil_r a : ldist a [] = length a.
Proof. by destruct a. Qed.

Lemma ldist_cons x y a b :
  ldist (x :: a) (y :: b) =
    Nat.min (Nat.min (ldist (x :: a) b + 1) (ldist a (y :: b) + 1))
            (ldist a b + subst_cost x y).
Proof. done. Qed.

Lemma subst_cost_le x y : subst_cost x y ≤ 1.
Proof. unfold subst_cost. case_decide; lia. Qed.

Lemma subst_cost_refl x : subst_cost x x = 0.
Proof. unfold subst_cost. by case_decide. Qed.

Lemma subst_cost_triangle x y z :
  subst_cost x z ≤ subst_cost x y + subst_cost y z.
Proof. unfold subst_cost. repeat case_decide; try lia. congruence. Qed.

(** The recurrence is the cost of some alignment... *)
Lemma ldist_alignment a b : alignment a b (ldist a b).
Proof.
  revert b. induction a as [|x a IHa]; intros b.
  - induction b as [|y b IHb]; [constructor|]. simpl in *. by constructor.
  - induction b as [|y b IHb].
    + rewrite ldist_nil_r. specialize (IHa []). rewrite ldist_nil_r in IHa.
      by constructor.
    + rewrite ldist_cons.
      assert (alignment (x :: a) (y :: b) (S (ldist (x :: a) b)))
        by by constructor.
      assert (alignment (x :: a) (y :: b) (S (ldist a (y :: b))))
        by (constructor; apply IHa).
      assert (alignment (x :: a) (y :: b) (ldist a b + subst_cost x y))
        by (constructor; apply IHa).
      destruct (Nat.min_spec (ldist (x :: a) b + 1) (ldist a (y :: b) + 1))
        as [[_ ->]|[_ ->]];
      match goal with
      | |- context [Nat.min ?u ?v] =>
          destruct (Nat.min_spec u v) as [[_ ->]|[_ ->]]
      end; rewrite ?Nat.add_1_r; done.
Qed.

(** ... and no alignment is cheaper. *)
Lemma ldist_le_alignment a b n : alignment a b n → ldist a b ≤ n.
Proof.
  induction 1 as [|x a b n _ IH|y a b n _ IH|x y a b n _ IH]; [done|..].
  - destruct b; [rewrite ldist_nil_r in IH |- *; simpl; lia|].
    rewrite ldist_cons. lia.
  - destruct a; [simpl in *; lia|]. rewrite ldist_cons. lia.
  - rewrite ldist_cons. lia.
Qed.

Lemma alignment_refl a : alignment a a 0.
Proof.
  induction a as [|x a IH]; [constructor|].
  replace 0 with (0 + subst_cost x x) by (rewrite subst_cost_refl; lia).
  by constructor.
Qed.

Lemma alignment_cons x a b n : alignment a b n → alignment (x :: a) (x :: b) n.
Proof.
  intros. replace n with (n + subst_cost x x) by (rewrite subst_cost_refl; lia).
  by constructor.
Qed.

Lemma alignment_app l a b n : alignment a b n → alignment (l ++ a) (l ++ b) n.
Proof. intros. induction l; [done|]. by apply alignment_cons. Qed.

(** One edit is an alignment of cost at most one. *)
Lemma edit1_alignment a b : edit1 a b → ∃ n, n ≤ 1 ∧ alignment a b n.
Proof.
  destruct 1 as [l c r|l c r|l c c' r].
  - exists 1. split; [done|]. apply alignment_app. constructor.
    apply alignment_refl.
  - exists 1. split; [done|]. apply alignment_app. constructor.
    apply alignment_refl.
  - exists (0 + subst_cost c c'). split; [pose proof (subst_cost_le c c'); lia|].
    apply alignment_app. constructor. apply alignment_refl.
Qed.

(** Alignments compose, and the costs at most add up. *)
Lemma alignment_trans a b n :
  alignment a b n → ∀ c m, alignment b c m →
  ∃ k, k ≤ n + m ∧ alignment a c k.
Proof.
  induction 1 as [|x a b n _ IH|y a b n Hab IH|x y a b n Hab IH].
  - intros c m Hc. exists m. split; [lia|done].
  - intros c m Hc. destruct (IH c m Hc) as (k & Hk & Hal).
    exists (S k). split; [lia|by constructor].
  - intros c m Hc. remember (y :: b) as b' eqn:Hb'.
    induction Hc as [|x' b' c m Hc _|z b' c m Hc IHc|x' z b' c m Hc _];
      try discriminate.
    + injection Hb' as -> ->. destruct (IH c m Hc) as (k & Hk & Hal).
      exists k. split; [lia|done].
    + destruct (IHc Hb') as (k & Hk & Hal).
      exists (S k). split; [lia|by constructor].
    + injection Hb' as -> ->. destruct (IH c m Hc) as (k & Hk & Hal).
      exists (S k). split; [lia|by constructor].
  - intros c m Hc. remember (y :: b) as b' eqn:Hb'.
    induction Hc as [|x' b' c m Hc _|z b' c m Hc IHc|x' z b' c m Hc _];
      try discriminate.
    + injection Hb' as -> ->. destruct (IH c m Hc) as (k & Hk & Hal).
      exists (S k). split; [lia|by constructor].
    + destruct (IHc Hb') as (k & Hk & Hal).
      exists (S k). split; [lia|by constructor].
    + injection Hb' as -> ->. destruct (IH c m Hc) as (k & Hk & Hal).
      exists (k + subst_cost x z). split; [|by constructor].
      pose proof (subst_cost_triangle x y z). lia.
Qed.

Lemma edits_alignment n a b : edits n a b → ∃ k, k ≤ n ∧ alignment a b k.
Proof.
  induction 1 as [a|n a b c Hab _ (k & Hk & Hal)].
  - exists 0. split; [done|apply alignment_refl].
  - destruct (edit1_alignment _ _ Hab) as (k1 & Hk1 & Hal1).
    destruct (alignment_trans _ _ _ Hal1 _ _ Hal) as (k' & Hk' & Hal').
    exists k'. split; [lia|done].
Qed.

Lemma edit1_cons x a b : edit1 a b → edit1 (x :: a) (x :: b).
Proof.
  destruct 1 as [l c r|l c r|l c c' r].
  - apply (edit_insert (x :: l)).
  - apply (edit_delete (x :: l)).
  - apply (edit_substitute (x :: l)).
Qed.

Lemma edits_cons x n a b : edits n a b → edits n (x :: a) (x :: b).
Proof.
  induction 1; [constructor|]. econstructor; [by apply edit1_cons|done].
Qed.

Lemma edits_weaken_subst x y n a b :
  edits n a b → edits (n + subst_cost x y) (x :: a) (y :: b).
Proof.
  intros Hab. unfold subst_cost. case_decide as Hxy.
  - subst. rewrite Nat.add_0_r. by apply edits_cons.
  - rewrite Nat.add_1_r. econstructor; [apply (edit_substitute [] x y)|].
    by apply edits_cons.
Qed.

(** An alignment of cost [n] is carried out by [n] edits. *)
Lemma alignment_edits a b n : alignment a b n → edits n a b.
Proof.
  induction 1 as [|x a b n _ IH|y a b n _ IH|x y a b n _ IH].
  - constructor.
  - econstructor; [apply (edit_delete [] x)|done].
  - econstructor; [apply (edit_insert [] y)|]. by apply edits_cons.
  - by apply edits_weaken_subst.
Qed.

(** The recurrence computes the least number of edits. *)
Lemma ldist_edits a b : edits (ldist a b) a b.
Proof. apply alignment_edits, ldist_alignment. Qed.

Lemma ldist_least a b n : edits n a b → ldist a b ≤ n.
Proof.
  intros (k & Hk & Hal)%edits_alignment.
  apply ldist_le_alignment in Hal. lia.
Qed.

Lemma edit1_reverse a b : edit1 a b → edit1 (reverse a) (reverse b).
Proof.
  destruct 1 as [l c r|l c r|l c c' r];
    rewrite !reverse_app, ?reverse_cons, <- ?(assoc_L (++)); constructor.
Qed.

Lemma edits_reverse n a b : edits n a b → edits n (reverse a) (reverse b).
Proof.
  induction 1; [constructor|]. econstructor; [by apply edit1_reverse|done].
Qed.
End EditDistance.

(** ** levenshteinDistance computes the edit distance *)

Lemma array_set_inside {A} i (v : A) a : i < length a → array_set i v a = <[i:=v]> a.
Proof. intros. unfold array_set. by case_decide. Qed.

Lemma init_matrix_replicate len1 len2 :
  init_matrix len1 len2 = replicate (len2 + 1) (replicate (len1 + 1) 0).
Proof.
  unfold init_matrix.
  apply (foldl_seq_invariant (fun k m => m = replicate k (replicate (len1 + 1) 0)));
    [done|].
  intros k m _ ->. unfold array_set. rewrite length_replicate.
  case_decide; [lia|]. by rewrite (replicate_add k 1).
Qed.

Section Table.
Variables text1 text2 : jsstring.
Abbreviation filled := (matrix_filled text1 text2).
Abbreviation dist := (prefix_distance text1 text2).

Lemma prefix_distance_row0 j : dist 0 j = Nat.min j (length text1).
Proof.
  unfold prefix_distance. rewrite take_0, reverse_nil, ldist_nil_r, length_reverse.
  by rewrite length_take.
Qed.

Lemma prefix_distance_col0 i : dist i 0 = Nat.min i (length text2).
Proof.
  unfold prefix_distance. rewrite take_0, reverse_nil. simpl.
  by rewrite length_reverse, length_take.
Qed.

Lemma prefix_distance_step i j :
  i < length text2 → j < length text1 →
  dist (S i) (S j) =
    Nat.min (Nat.min (dist i (S j) + 1) (dist (S i) j + 1))
            (dist i j + if decide (text1 !! j = text2 !! i) then 0 else 1).
Proof.
  intros Hi Hj. unfold prefix_distance.
  destruct (lookup_lt_is_Some_2 text1 j Hj) as [x Hx].
  destruct (lookup_lt_is_Some_2 text2 i Hi) as [y Hy].
  rewrite (take_S_r text1 j x Hx), (take_S_r text2 i y Hy).
  rewrite !reverse_snoc, ldist_cons, Hx, Hy. unfold subst_cost.
  repeat case_decide; congruence.
Qed.

Lemma cell_set_filled m i j v :
  i ≤ length text2 → j ≤ length text1 →
  filled m i j → v = dist i j → filled (cell_set m i j v) i (j + 1).
Proof.
  intros Hi Hj (Hlen & Hrows & Hcells) ->. unfold cell_set.
  assert (j < length (m !!! i)) by (rewrite Hrows; lia).
  rewrite array_set_inside by done.
  split; [by rewrite length_insert|]. split.
  - intros r Hr. destruct (decide (r = i)) as [->|].
    + rewrite list_lookup_total_insert_eq by lia. rewrite length_insert. auto.
    + rewrite list_lookup_total_insert_ne by done. auto.
  - intros r c Hr Hc Hbefore. unfold cell.
    destruct (decide (r = i)) as [->|].
    + rewrite list_lookup_total_insert_eq by lia.
      destruct (decide (c = j)) as [->|].
      * by rewrite list_lookup_total_insert_eq.
      * rewrite list_lookup_total_insert_ne by done.
        apply Hcells; [done..|]. lia.
    + rewrite list_lookup_total_insert_ne by done.
      apply Hcells; [done..|]. lia.
Qed.

Lemma populate_cell_filled m i j :
  i ≤ length text2 → j ≤ length text1 →
  filled m i j → filled (populate_cell text1 text2 i j m) i (j + 1).
Proof.
  intros Hi Hj Hm. unfold populate_cell.
  destruct (decide (i = 0)) as [->|Hi0].
  { apply cell_set_filled; [done..|]. rewrite prefix_distance_row0. lia. }
  destruct (decide (j = 0)) as [->|Hj0].
  { apply cell_set_filled; [done..|]. rewrite prefix_distance_col0. lia. }
  apply cell_set_filled; [done..|].
  destruct Hm as (_ & _ & Hcells).
  rewrite !Hcells by lia.
  destruct i as [|i]; [done|]. destruct j as [|j]; [done|]. simpl.
  rewrite !Nat.sub_0_r. by rewrite prefix_distance_step by lia.
Qed.

Lemma populate_row_filled m i :
  i ≤ length text2 → filled m i 0 →
  filled (foldl (fun m j => populate_cell text1 text2 i j m) m
                (seq 0 (length text1 + 1))) (i + 1) 0.
Proof.
  intros Hi Hm.
  assert (filled (foldl (fun m j => populate_cell text1 text2 i j m) m
                        (seq 0 (length text1 + 1))) i (length text1 + 1))
    as (Hlen & Hrows & Hcells).
  { apply (foldl_seq_invariant (fun j m => filled m i j)); [done|].
    intros j m' Hj. apply populate_cell_filled; lia. }
  split; [done|]. split; [done|].
  intros r c Hr Hc Hbefore. apply Hcells; [done..|]. lia.
Qed.

Lemma populate_matrix_filled m :
  filled m 0 0 → filled (populate_matrix text1 text2 m) (length text2 + 1) 0.
Proof.
  intros Hm. unfold populate_matrix.
  apply (foldl_seq_invariant (fun i m => filled m i 0)); [done|].
  intros i m' Hi. apply populate_row_filled. lia.
Qed.

Lemma init_matrix_filled :
  filled (init_matrix (length text1) (length text2)) 0 0.
Proof.
  rewrite init_matrix_replicate. split; [by rewrite length_replicate|].
  split; [|intros; lia].
  intros r Hr. rewrite lookup_total_replicate_2 by lia.
  by rewrite length_replicate.
Qed.

End Table.

(** The table's last cell is the distance of the recurrence. *)
Lemma levenshteinDistance_ldist text1 text2 :
  levenshteinDistance text1 text2 = ldist (reverse text1) (reverse text2).
Proof.
  unfold levenshteinDistance.
  case_decide as H1.
  { apply nil_length_inv in H1 as ->. rewrite reverse_nil. simpl.
    by rewrite length_reverse. }
  case_decide as H2.
  { apply nil_length_inv in H2 as ->.
    by rewrite reverse_nil, ldist_nil_r, length_reverse. }
  destruct (populate_matrix_filled _ _ _ (init_matrix_filled text1 text2))
    as (_ & _ & Hcells).
  rewrite Hcells by lia. unfold prefix_distance.
  by rewrite !firstn_all.
Qed.

(** ** The order of binary64 numbers *)

Lemma SFltb_trans a b c :
  SFltb a b = true → SFltb b c = true → SFltb a c = true.
Proof.
  unfold SFltb, SFcompare.
  destruct a as [sa|sa| |sa ma ea], b as [sb|sb| |sb mb eb],
           c as [sc|sc| |sc mc ec];
    repeat match goal with s : bool |- _ => destruct s end;
    simpl; try congruence.
  all: rewrite ?Pos.compare_cont_spec; simpl.
  all: destruct (Z.compare_spec ea eb), (Z.compare_spec eb ec),
         (Z.compare_spec ea ec); try congruence; try lia; subst.
  all: destruct (Pos.compare_spec ma mb), (Pos.compare_spec mb mc),
         (Pos.compare_spec ma mc); simpl; try congruence; lia.
Qed.

Lemma SFltb_irrefl a : SFltb a a = false.
Proof.
  unfold SFltb, SFcompare. destruct a as [[]|[]| |[] m e]; try done.
  - rewrite Z.compare_refl, Pos.compare_cont_spec, Pos.compare_refl. done.
  - by rewrite Z.compare_refl, Pos.compare_cont_spec, Pos.compare_refl.
Qed.

Lemma gt_trans a b c : gt a b = true → gt b c = true → gt a c = true.
Proof.
  unfold gt. rewrite !ltb_spec. intros Hab Hbc. by eapply SFltb_trans.
Qed.

Lemma gt_irrefl a : gt a a = false.
Proof. unfold gt. rewrite ltb_spec. apply SFltb_irrefl. Qed.

(** A number that does not exceed the old best does not exceed a better one. *)
Lemma gt_not_above s h x : gt s h = true → gt x h = false → gt x s = false.
Proof.
  intros Hsh Hxh. destruct (gt x s) eqn:Hxs; [|done].
  by rewrite (gt_trans _ _ _ Hxs Hsh) in Hxh.
Qed.

Lemma SFltb_not_nan a b : SFltb a b = true → a ≠ S754_nan ∧ b ≠ S754_nan.
Proof. unfold SFltb, SFcompare. by destruct a, b. Qed.

Lemma SFcompare_trichotomy a b :
  a ≠ S754_nan → b ≠ S754_nan →
  SFltb b a = false → SFeqb a b = false → SFltb a b = true.
Proof.
  unfold SFltb, SFeqb, SFcompare.
  destruct a as [sa|sa| |sa ma ea], b as [sb|sb| |sb mb eb];
    repeat match goal with s : bool |- _ => destruct s end;
    simpl; try congruence.
  all: intros _ _; rewrite ?Pos.compare_cont_spec.
  all: rewrite (Z.compare_antisym ea eb), (Pos.compare_antisym ma mb).
  all: destruct (ea ?= eb)%Z; simpl; try congruence.
  all: destruct (ma ?= mb)%positive; simpl; congruence.
Qed.

Lemma gt_is_number a b : gt a b = true → is_number a ∧ is_number b.
Proof.
  unfold gt, is_number. rewrite ltb_spec. intros []%SFltb_not_nan. done.
Qed.

Lemma zero_is_number : is_number 0%float.
Proof. unfold is_number. by vm_compute. Qed.

(** Of two numbers, one exceeds the other or they are equal. *)
Lemma number_trichotomy a b :
  is_number a → is_number b →
  gt a b = false → (a =? b)%float = false → gt b a = true.
Proof.
  unfold gt, is_number. rewrite !ltb_spec, FloatAxioms.eqb_spec.
  apply SFcompare_trichotomy.
Qed.

(** ** Lines of a document *)

Lemma split_lines_length text : 0 < length (split_lines text).
Proof.
  induction text as [|c text IH]; simpl; [lia|].
  case_decide; simpl; [lia|]. destruct (split_lines text); simpl in *; lia.
Qed.

Lemma lineCount_pos d : 0 < lineCount d.
Proof. apply split_lines_length. Qed.

Lemma lineAt_Returns d n l : doc_lines d !! n = Some l → lineAt d n = Returns l.
Proof. unfold lineAt. by intros ->. Qed.

Lemma lineAt_inside d n :
  n < lineCount d → ∃ l, doc_lines d !! n = Some l ∧ lineAt d n = Returns l.
Proof.
  intros [l Hl]%lookup_lt_is_Some_2. exists l. split; [done|].
  by apply lineAt_Returns.
Qed.

Lemma lineAt_outside d n : lineCount d ≤ n → lineAt d n = Throws IllegalLine.
Proof.
  intros Hn. unfold lineAt. by rewrite (lookup_ge_None_2 (doc_lines d) n).
Qed.

(** ** The search loop *)

Lemma mapM_lineAt d i k s :
  i + s + k ≤ lineCount d →
  mapM (fun idx => lineAt d (i + idx)) (seq s k)
  = Returns (take k (drop (i + s) (doc_lines d))).
Proof.
  revert s. induction k as [|k IH]; intros s Hk; [done|].
  destruct (lineAt_inside d (i + s)) as (l & Hl & Hat); [lia|].
  simpl. rewrite Hat. simpl. rewrite IH by lia. simpl.
  rewrite (drop_S _ _ _ Hl). simpl. by rewrite Nat.add_succ_r.
Qed.

Lemma blockOfLines_Returns d i k :
  i + k ≤ lineCount d → blockOfLines d i k = Returns (block_at d i k).
Proof.
  intros. unfold blockOfLines, block_at. rewrite mapM_lineAt by lia.
  by rewrite Nat.add_0_r.
Qed.

Lemma block_at_length d i k : i + k ≤ lineCount d → length (block_at d i k) = k.
Proof.
  intros. unfold block_at. rewrite length_take, length_drop.
  unfold lineCount in *. lia.
Qed.

Lemma search_step_pick d currentLine k st i :
  i + k ≤ lineCount d →
  search_step d currentLine k st i = Returns (search_pick d currentLine k st i).
Proof.
  intros. unfold search_step, search_pick, score_at.
  rewrite blockOfLines_Returns by done. simpl. by case (gt _ _).
Qed.

Lemma for_each_search d currentLine k st idxs :
  Forall (fun i => i + k ≤ lineCount d) idxs →
  for_each (search_step d currentLine k) st idxs
  = Returns (foldl (search_pick d currentLine k) st idxs).
Proof.
  intros Hall. revert st.
  induction Hall as [|i idxs Hi _ IH]; intros st; [done|].
  simpl. rewrite search_step_pick by done. apply IH.
Qed.

Lemma candidates_spec d k i :
  i < Z.to_nat (Z.of_nat (lineCount d) - Z.of_nat k + 1) ↔ i + k ≤ lineCount d.
Proof. lia. Qed.

Lemma candidates_inside d k : Forall (fun i => i + k ≤ lineCount d) (candidates d k).
Proof.
  apply Forall_forall. intros i [_ Hi]%elem_of_seq. by apply candidates_spec.
Qed.

Lemma getSemanticContextWithinDocument_Returns d position k currentLine :
  doc_lines d !! line position = Some currentLine →
  getSemanticContextWithinDocument d position k
  = Returns (fst (foldl (search_pick d currentLine k) (no_match, 0%float)
                        (candidates d k))).
Proof.
  intros Hl. unfold getSemanticContextWithinDocument.
  rewrite (lineAt_Returns _ _ _ Hl). simpl.
  by rewrite for_each_search by apply candidates_inside.
Qed.

Lemma getSemanticContextWithinDocument_Throws d position k :
  lineCount d ≤ line position →
  getSemanticContextWithinDocument d position k = Throws IllegalLine.
Proof.
  intros. unfold getSemanticContextWithinDocument.
  by rewrite lineAt_outside.
Qed.

Section Scan.
Variables (d : TextDocument) (currentLine : jsstring) (k : nat).
Abbreviation score := (score_at d currentLine).
Abbreviation pick := (search_pick d currentLine k).

Lemma scanned_step n st :
  scanned d currentLine k n st → scanned d currentLine k (n + 1) (pick st n).
Proof.
  unfold search_pick. intros [[-> Hlow]|(i & Hi & -> & Hpos & Hmax)]; simpl.
  - destruct (gt (score n k) 0%float) eqn:Hn.
    + right. exists n. split; [lia|]. split; [done|]. split; [done|].
      intros j Hj. destruct (decide (j = n)) as [->|]; [apply gt_irrefl|].
      apply (gt_not_above _ 0%float); [done|]. apply Hlow. lia.
    + left. split; [done|]. intros j Hj.
      destruct (decide (j = n)) as [->|]; [done|]. apply Hlow. lia.
  - destruct (gt (score n k) (score i k)) eqn:Hn.
    + right. exists n. split; [lia|]. split; [done|].
      split; [by eapply gt_trans|].
      intros j Hj. destruct (decide (j = n)) as [->|]; [apply gt_irrefl|].
      apply (gt_not_above _ (score i k)); [done|]. apply Hmax. lia.
    + right. exists i. split; [lia|]. split; [done|]. split; [done|].
      intros j Hj. destruct (decide (j = n)) as [->|]; [done|].
      apply Hmax. lia.
Qed.

Lemma scanned_all n :
  scanned d currentLine k n (foldl pick (no_match, 0%float) (seq 0 n)).
Proof.
  apply (foldl_seq_invariant (scanned d currentLine k)).
  - left. split; [done|]. intros; lia.
  - intros m st _. apply scanned_step.
Qed.

(** A candidate that scores above 0, that no candidate exceeds and whose
    score no earlier candidate equals is the one the loop ends with: a later
    candidate with the same score does not take its place. *)
Lemma scan_first_best n i :
  i < n →
  gt (score i k) 0%float = true →
  (∀ j, j < n → gt (score j k) (score i k) = false) →
  (∀ j, j < i → (score j k =? score i k)%float = false) →
  foldl pick (no_match, 0%float) (seq 0 n) = held d currentLine k i.
Proof.
  intros Hi Hpos Hmax Hfirst.
  set (P := fun m (st : SemanticContext * number) =>
              if decide (m ≤ i)
              then is_number (snd st) ∧
                   (snd st = 0%float ∨ ∃ j, j < m ∧ snd st = score j k)
              else st = held d currentLine k i).
  assert (P n (foldl pick (no_match, 0%float) (seq 0 n))) as HP.
  { apply (foldl_seq_invariant P).
    - unfold P. case_decide; [|lia]. split; [apply zero_is_number|by left].
    - intros m st Hm. unfold P, search_pick.
      destruct (decide (m ≤ i)) as [Hmi|Hmi].
      + intros [Hnum Hst]. destruct (decide (m = i)) as [->|Hne].
        * case_decide; [lia|].
          destruct Hst as [->|(j & Hj & Hj')]; [by rewrite Hpos|].
          rewrite Hj' in *.
          rewrite (number_trichotomy (score j k) (score i k)); [done|done|..].
          -- by apply gt_is_number in Hpos as [].
          -- apply Hmax. lia.
          -- by apply Hfirst.
        * case_decide; [|lia].
          destruct (gt (score m k) (snd st)) eqn:Hgt; simpl.
          -- apply gt_is_number in Hgt as []. split; [done|].
             right. exists m. split; [lia|done].
          -- split; [done|]. destruct Hst as [?|(j & ? & ?)]; [by left|].
             right. exists j. split; [lia|done].
      + intros ->. case_decide; [lia|]. simpl. by rewrite Hmax by lia. }
  unfold P in HP. by case_decide; [lia|].
Qed.
End Scan.

(** ** getSemanticContextWithinDocument *)

(** C3: for a cursor on a line of the document, the search with window [k]
    returns; it returns either a block of [k] consecutive lines that scores
    above 0 and that no candidate block (start indices 0 to lineCount - k)
    exceeds, or, when no candidate scores above 0, and so when
    lineCount < k, the empty block with score 0. *)
Theorem getSemanticContextWithinDocument_maximal d position k :
  line position < lineCount d →
  ∃ currentLine result,
    doc_lines d !! line position = Some currentLine ∧
    getSemanticContextWithinDocument d position k = Returns result ∧
    ((∃ i, i + k ≤ lineCount d ∧
           semanticContext result = block_at d i k ∧
           length (semanticContext result) = k ∧
           similarityScore result = score_at d currentLine i k ∧
           gt (similarityScore result) 0%float = true ∧
           ∀ j, j + k ≤ lineCount d →
                gt (score_at d currentLine j k) (similarityScore result) = false)
     ∨ (result = no_match ∧
        ∀ j, j + k ≤ lineCount d → gt (score_at d currentLine j k) 0%float = false)) ∧
    ((∀ j, j + k ≤ lineCount d → gt (score_at d currentLine j k) 0%float = false) →
     result = no_match) ∧
    (lineCount d < k → result = no_match).
Proof.
  intros (currentLine & Hl & _)%lineAt_inside.
  exists currentLine. eexists. split; [done|].
  split; [by apply getSemanticContextWithinDocument_Returns|].
  unfold candidates.
  pose proof (scanned_all d currentLine k
                (Z.to_nat (Z.of_nat (lineCount d) - Z.of_nat k + 1))) as Hscan.
  assert (∀ P : nat → Prop,
            (∀ j, j < Z.to_nat (Z.of_nat (lineCount d) - Z.of_nat k + 1) → P j) →
            ∀ j, j + k ≤ lineCount d → P j) as Hcand.
  { intros P HP j Hj. apply HP. by apply candidates_spec. }
  destruct Hscan as [[-> Hlow]|(i & Hi & -> & Hpos & Hmax)]; simpl.
  - split; [right; split; [done|]; by apply (Hcand (fun j => gt _ _ = false))|].
    done.
  - apply candidates_spec in Hi. split; [|split].
    + left. exists i. split; [done|]. split; [done|].
      split; [by apply block_at_length|]. split; [done|]. split; [done|].
      by apply (Hcand (fun j => gt _ _ = false)).
    + intros Hnone. by rewrite Hnone in Hpos.
    + lia.
Qed.

(** C4 (amended): a candidate block that scores above 0, that no candidate
    exceeds and whose score no block with a smaller start index equals is
    the block returned, whatever later blocks score the same: on a tie for
    a highest score above 0 the smallest start index wins.  When no
    candidate scores above 0, so when the highest score, reached by one
    block or by several, is 0, the empty block with score 0 is returned,
    which for a window of at least one line is none of the candidates. *)
Theorem getSemanticContextWithinDocument_first_wins d position k currentLine :
  doc_lines d !! line position = Some currentLine →
  (∀ i, i + k ≤ lineCount d →
        gt (score_at d currentLine i k) 0%float = true →
        (∀ j, j + k ≤ lineCount d →
              gt (score_at d currentLine j k) (score_at d currentLine i k)
              = false) →
        (∀ j, j < i →
              (score_at d currentLine j k =? score_at d currentLine i k)%float
              = false) →
        getSemanticContextWithinDocument d position k
        = Returns {| semanticContext := block_at d i k;
                     similarityScore := score_at d currentLine i k |}) ∧
  ((∀ j, j + k ≤ lineCount d →
         gt (score_at d currentLine j k) 0%float = false) →
   getSemanticContextWithinDocument d position k = Returns no_match ∧
   (0 < k → ∀ i, i + k ≤ lineCount d →
            semanticContext no_match ≠ block_at d i k)).
Proof.
  intros Hl. rewrite (getSemanticContextWithinDocument_Returns _ _ _ _ Hl).
  unfold candidates. split.
  - intros i Hi Hpos Hmax Hfirst.
    rewrite (scan_first_best d currentLine k _ i); try done.
    + by apply candidates_spec.
    + intros j Hj. apply Hmax. by apply candidates_spec.
  - intros Hlow. split.
    + destruct (scanned_all d currentLine k
                  (Z.to_nat (Z.of_nat (lineCount d) - Z.of_nat k + 1)))
        as [[-> _]|(i & Hi & _ & Hpos & _)]; [done|].
      apply candidates_spec in Hi. by rewrite (Hlow i Hi) in Hpos.
    + intros Hk i Hi Hblock. apply (f_equal length) in Hblock.
      rewrite block_at_length in Hblock by done. simpl in Hblock. lia.
Qed.

(** ** Joining and splitting lines *)

Lemma join_cons sep p l rest :
  join sep (p :: l :: rest) = p ++ sep :: join sep (l :: rest).
Proof. done. Qed.

Lemma join_app sep ls1 ls2 :
  ls1 ≠ [] → ls2 ≠ [] →
  join sep (ls1 ++ ls2) = join sep ls1 ++ sep :: join sep ls2.
Proof.
  intros H1 H2. induction ls1 as [|p [|l ls1] IH]; [done|..].
  - destruct ls2; done.
  - change (join sep (p :: (l :: ls1) ++ ls2)
            = join sep (p :: l :: ls1) ++ sep :: join sep ls2).
    simpl app at 1. rewrite !join_cons, <- (assoc_L (++)). simpl.
    do 2 f_equal. by apply IH.
Qed.

Lemma join_take_prefix sep ls e : join sep (take e ls) `prefix_of` join sep ls.
Proof.
  destruct (decide (take e ls = [])) as [->|Ht]; [apply prefix_nil|].
  destruct (decide (drop e ls = [])) as [Hd|Hd].
  - rewrite <- (take_drop e ls) at 2. by rewrite Hd, app_nil_r.
  - rewrite <- (take_drop e ls) at 2. rewrite join_app by done.
    by apply prefix_app_r.
Qed.

Lemma join_drop_suffix sep ls s : join sep (drop s ls) `suffix_of` join sep ls.
Proof.
  destruct (decide (drop s ls = [])) as [->|Hd]; [apply suffix_nil|].
  destruct (decide (take s ls = [])) as [Ht|Ht].
  - rewrite <- (take_drop s ls) at 2. by rewrite Ht.
  - rewrite <- (take_drop s ls) at 2. rewrite join_app by done.
    apply suffix_app_r. by apply suffix_cons_r.
Qed.

Lemma split_lines_nonempty text : split_lines text ≠ [].
Proof.
  pose proof (split_lines_length text).
  destruct (split_lines text); [simpl in *; lia|done].
Qed.

(** Joining the lines of a text gives the text back. *)
Lemma join_split_lines text : join LF (split_lines text) = text.
Proof.
  induction text as [|c text IH]; [done|]. simpl.
  pose proof (split_lines_nonempty text).
  destruct (split_lines text) as [|l ls]; [done|].
  case_decide as Hc.
  - rewrite join_cons, IH. by subst.
  - destruct ls; simpl in *; by rewrite IH.
Qed.

Lemma join_lines text : join LF (lines text) = text.
Proof. apply join_split_lines. Qed.

Lemma join_doc_lines d : join LF (doc_lines d) = getText d.
Proof. apply join_split_lines. Qed.

(** ** Offsets and positions *)

Lemma line_start_0 ls : line_start ls 0 = 0.
Proof. done. Qed.

Lemma line_start_S l ls n :
  line_start (l :: ls) (S n) = length l + 1 + line_start ls n.
Proof. done. Qed.

Lemma line_start_le ls n c :
  n < length ls → c ≤ length (ls !!! n) →
  line_start ls n + c ≤ length (join LF ls).
Proof.
  revert n. induction ls as [|l [|l' ls] IH]; intros n Hn Hc; [simpl in *; lia|..].
  - destruct n; simpl in *; lia.
  - rewrite join_cons, length_app, length_cons.
    destruct n as [|n]; [simpl in *; lia|].
    rewrite line_start_S. specialize (IH n). simpl in Hn.
    rewrite lookup_total_cons_ne_0 in Hc by done. simpl in Hc.
    specialize (IH ltac:(simpl; lia) Hc). lia.
Qed.

Lemma position_in_spec ls n off :
  ls ≠ [] →
  n ≤ line (position_in ls n off) ∧
  line (position_in ls n off) - n < length ls ∧
  character (position_in ls n off)
    ≤ length (ls !!! (line (position_in ls n off) - n)) ∧
  line_start ls (line (position_in ls n off) - n)
    + character (position_in ls n off)
  = Nat.min off (length (join LF ls)).
Proof.
  intros Hne. revert n off.
  induction ls as [|l [|l' ls] IH]; intros n off; [done|..].
  - simpl. rewrite Nat.sub_diag. simpl. lia.
  - rewrite join_cons, length_app, length_cons.
    change (position_in (l :: l' :: ls) n off)
      with (if decide (off ≤ length l) then {| line := n; character := off |}
            else position_in (l' :: ls) (S n) (off - length l - 1)).
    case_decide as Hoff.
    + simpl. rewrite Nat.sub_diag. simpl. lia.
    + destruct (IH ltac:(done) (S n) (off - length l - 1))
        as (Hline & Hlt & Hchar & Hoffset).
      set (p := position_in (l' :: ls) (S n) (off - length l - 1)) in *.
      replace (line p - n) with (S (line p - S n)) by lia.
      rewrite line_start_S, lookup_total_cons_ne_0 by done. simpl Nat.pred.
      clear IH. rewrite !length_cons in *. lia.
Qed.

Lemma position_in_monotone ls n a b :
  a ≤ b → isBefore (position_in ls n b) (position_in ls n a) = false.
Proof.
  unfold isBefore. revert n a b.
  induction ls as [|l [|l' ls] IH]; intros n a b Hab.
  - simpl. rewrite Nat.ltb_irrefl, Nat.eqb_refl. done.
  - simpl. rewrite Nat.ltb_irrefl, Nat.eqb_refl. simpl.
    apply Nat.ltb_ge. lia.
  - change (position_in (l :: l' :: ls) n b)
      with (if decide (b ≤ length l) then {| line := n; character := b |}
            else position_in (l' :: ls) (S n) (b - length l - 1)).
    change (position_in (l :: l' :: ls) n a)
      with (if decide (a ≤ length l) then {| line := n; character := a |}
            else position_in (l' :: ls) (S n) (a - length l - 1)).
    destruct (decide (b ≤ length l)), (decide (a ≤ length l)); try lia.
    + simpl. rewrite Nat.ltb_irrefl, Nat.eqb_refl. simpl.
      apply Nat.ltb_ge. lia.
    + destruct (position_in_spec (l' :: ls) (S n) (b - length l - 1))
        as (Hline & _); [done|].
      set (q := position_in (l' :: ls) (S n) (b - length l - 1)) in *.
      cbn [line character].
      apply orb_false_iff. split; [apply Nat.ltb_ge; lia|].
      apply andb_false_iff. left. apply Nat.eqb_neq. lia.
    + apply IH. lia.
Qed.

Lemma validatePosition_inside d p :
  line p < lineCount d → character p ≤ length (doc_lines d !!! line p) →
  validatePosition d p = p.
Proof.
  intros Hl Hc. unfold validatePosition. case_decide; [lia|].
  destruct p as [l c]. simpl in *. f_equal. lia.
Qed.

Lemma validatePosition_valid d p :
  line (validatePosition d p) < lineCount d ∧
  character (validatePosition d p)
    ≤ length (doc_lines d !!! line (validatePosition d p)).
Proof.
  pose proof (lineCount_pos d). unfold validatePosition.
  case_decide; simpl; lia.
Qed.

Lemma offsetAt_le d p : offsetAt d p ≤ length (getText d).
Proof.
  unfold offsetAt. destruct (validatePosition_valid d p) as [Hl Hc].
  rewrite <- join_doc_lines. by apply line_start_le.
Qed.

Lemma offsetAt_positionAt d off :
  offsetAt d (positionAt d off)
  = Nat.min (Z.to_nat (Z.max 0 off)) (length (getText d)).
Proof.
  unfold positionAt.
  destruct (position_in_spec (doc_lines d) 0 (Z.to_nat (Z.max 0 off)))
    as (_ & Hl & Hc & Hoff); [apply split_lines_nonempty|].
  rewrite Nat.sub_0_r in *. unfold offsetAt.
  rewrite validatePosition_inside by done.
  by rewrite Hoff, join_doc_lines.
Qed.

Lemma offsetAt_origin d : offsetAt d {| line := 0; character := 0 |} = 0.
Proof.
  pose proof (lineCount_pos d). unfold offsetAt, validatePosition.
  case_decide; [simpl in *; lia|]. done.
Qed.

Lemma line_start_next ls m m' :
  m < m' → m' ≤ length ls →
  line_start ls m + length (ls !!! m) + 1 ≤ line_start ls m'.
Proof.
  revert m m'. induction ls as [|l ls IH]; intros m m' Hm Hm'; [simpl in *; lia|].
  destruct m' as [|m']; [lia|]. rewrite line_start_S.
  destruct m as [|m]; [simpl; lia|].
  rewrite line_start_S, lookup_total_cons_ne_0 by done. simpl Nat.pred.
  specialize (IH m m'). simpl in Hm'. lia.
Qed.

Lemma line_start_last ls :
  ls ≠ [] →
  line_start ls (length ls - 1) + length (ls !!! (length ls - 1))
  = length (join LF ls).
Proof.
  induction ls as [|l [|l' ls] IH]; intros Hne; [done|simpl; lia|].
  rewrite join_cons, length_app, !length_cons.
  replace (S (S (length ls)) - 1) with (S (length ls)) by lia.
  rewrite line_start_S, lookup_total_cons_ne_0 by done. simpl Nat.pred.
  specialize (IH ltac:(done)). rewrite length_cons in IH.
  replace (S (length ls) - 1) with (length ls) in IH by lia. lia.
Qed.

(** A position after the end of the document is adjusted to the end. *)
Lemma offsetAt_after_end d p :
  isBefore (positionAt d (Z.of_nat (length (getText d)))) p = true →
  offsetAt d p = length (getText d).
Proof.
  intros Hbefore.
  pose proof (offsetAt_positionAt d (Z.of_nat (length (getText d)))) as Hend.
  replace (Z.to_nat (Z.max 0 (Z.of_nat (length (getText d)))))
    with (length (getText d)) in Hend by lia.
  rewrite Nat.min_id in Hend.
  unfold positionAt in *.
  destruct (position_in_spec (doc_lines d) 0
              (Z.to_nat (Z.max 0 (Z.of_nat (length (getText d))))))
    as (_ & Hl & Hc & _); [apply split_lines_nonempty|].
  set (e := position_in _ _ _) in *. rewrite Nat.sub_0_r in *.
  unfold offsetAt in Hend. rewrite validatePosition_inside in Hend by done.
  pose proof (offsetAt_le d p) as Hle. unfold offsetAt in *.
  unfold validatePosition in *. case_decide as Hp; cbn [line character] in *.
  - rewrite <- join_doc_lines. apply line_start_last, split_lines_nonempty.
  - unfold isBefore in Hbefore.
    apply orb_true_iff in Hbefore
        as [Hlt%Nat.ltb_lt|[Heq%Nat.eqb_eq Hlt%Nat.ltb_lt]%andb_true_iff].
    + pose proof (line_start_next (doc_lines d) (line e) (line p) Hlt).
      unfold lineCount in *. lia.
    + rewrite Heq in *. lia.
Qed.

Lemma completePrefix_take d p : completePrefix d p = take (offsetAt d p) (getText d).
Proof.
  unfold completePrefix, new_Range.
  replace (isBefore p {| line := 0; character := 0 |}) with false.
  - unfold getTextRange. cbn [range_start range_end].
    by rewrite offsetAt_origin, Nat.sub_0_r, drop_0.
  - unfold isBefore. simpl. by rewrite andb_false_r.
Qed.

Lemma completeSuffix_drop d p : completeSuffix d p = drop (offsetAt d p) (getText d).
Proof.
  unfold completeSuffix, new_Range.
  pose proof (offsetAt_positionAt d (Z.of_nat (length (getText d)))) as Hend.
  replace (Z.to_nat (Z.max 0 (Z.of_nat (length (getText d)))))
    with (length (getText d)) in Hend by lia.
  rewrite Nat.min_id in Hend.
  destruct (isBefore _ p) eqn:Hbefore; unfold getTextRange;
    cbn [range_start range_end]; rewrite Hend.
  - rewrite (offsetAt_after_end _ _ Hbefore). by rewrite Nat.sub_diag, drop_all.
  - rewrite take_ge; [done|]. rewrite length_drop. lia.
Qed.

Lemma completePrefix_length d p : length (completePrefix d p) = offsetAt d p.
Proof.
  rewrite completePrefix_take, length_take. pose proof (offsetAt_le d p). lia.
Qed.

Lemma completeSuffix_length d p :
  length (completeSuffix d p) = length (getText d) - offsetAt d p.
Proof. by rewrite completeSuffix_drop, length_drop. Qed.

(** ** The two truncation loops *)

Lemma raw_length_cons l ls :
  raw_length (l :: ls) = (Z.of_nat (length l) + raw_length ls)%Z.
Proof. done. Qed.

Lemma raw_length_app ls1 ls2 :
  raw_length (ls1 ++ ls2) = (raw_length ls1 + raw_length ls2)%Z.
Proof.
  induction ls1 as [|l ls1 IH]; [done|].
  simpl app. rewrite !raw_length_cons, IH. lia.
Qed.

Lemma raw_length_reverse ls : raw_length (reverse ls) = raw_length ls.
Proof.
  induction ls as [|l ls IH]; [done|].
  rewrite reverse_cons, raw_length_app, IH, !raw_length_cons. simpl. lia.
Qed.

(** The forward loop keeps what the forward walk keeps. *)
Lemma suffix_loop_walk ls cap n i total :
  i + n = length ls →
  take (suffix_loop ls cap n i total i) ls
  = take i ls ++ walk_forward cap total (drop i ls).
Proof.
  revert i total. induction n as [|n IH]; intros i total Hlen.
  - simpl. rewrite drop_ge by lia. simpl. by rewrite app_nil_r.
  - destruct (lookup_lt_is_Some_2 ls i) as [x Hx]; [lia|].
    cbn [suffix_loop]. rewrite (list_lookup_total_correct _ _ _ Hx).
    rewrite (drop_S _ _ _ Hx). cbn [walk_forward].
    destruct (total + Z.of_nat (length x) >? cap)%Z.
    + by rewrite app_nil_r.
    + rewrite IH by lia. rewrite Nat.add_1_r, (take_S_r _ _ _ Hx).
      by rewrite <- (assoc_L (++)).
Qed.

(** The backward loop keeps what the backward walk keeps. *)
Lemma prefix_loop_walk ls cap n total :
  n ≤ length ls →
  drop (prefix_loop ls cap n total n) ls
  = reverse (walk_forward cap total (reverse (take n ls))) ++ drop n ls.
Proof.
  revert total. induction n as [|n IH]; intros total Hlen; [done|].
  destruct (lookup_lt_is_Some_2 ls n) as [x Hx]; [lia|].
  cbn [prefix_loop]. rewrite (list_lookup_total_correct _ _ _ Hx).
  rewrite (take_S_r _ _ _ Hx), reverse_snoc. cbn [walk_forward].
  destruct (total + Z.of_nat (length x) >? cap)%Z; [done|].
  rewrite IH by lia. rewrite reverse_cons, <- (assoc_L (++)). simpl.
  by rewrite (drop_S _ _ _ Hx).
Qed.

(** What the forward walk keeps: the longest run of leading lines whose raw
    length, added to [total], stays within [cap] at every line. *)
Lemma walk_forward_spec cap total ls :
  ∃ m, walk_forward cap total ls = take m ls ∧ m ≤ length ls ∧
       (∀ m', 0 < m' → m' ≤ m → (total + raw_length (take m' ls) ≤ cap)%Z) ∧
       (m < length ls → (total + raw_length (take (m + 1) ls) > cap)%Z).
Proof.
  revert total. induction ls as [|l ls IH]; intros total.
  - exists 0. repeat split; simpl; intros; lia.
  - cbn [walk_forward].
    destruct (total + Z.of_nat (length l) >? cap)%Z eqn:Hcap.
    + exists 0. split; [done|]. split; [simpl; lia|]. split; [intros; lia|].
      intros _. simpl. lia.
    + destruct (IH (total + Z.of_nat (length l))%Z) as (m & Hm & Hle & Hin & Hout).
      exists (S m). split; [by rewrite Hm|]. split; [simpl; lia|]. split.
      * intros [|m'] ? ?; [lia|]. cbn [take]. rewrite raw_length_cons.
        destruct m' as [|m'']; [rewrite take_0; simpl; lia|].
        specialize (Hin (S m'')). lia.
      * intros ?. cbn [take Nat.add]. rewrite raw_length_cons.
        specialize (Hout ltac:(simpl in *; lia)). lia.
Qed.

(** The same for the backward walk: the longest run of trailing lines. *)
Lemma walk_backward_spec cap ls :
  ∃ s, walk_backward cap ls = drop s ls ∧ s ≤ length ls ∧
       (∀ s', s ≤ s' → s' < length ls → (raw_length (drop s' ls) ≤ cap)%Z) ∧
       (0 < s → (raw_length (drop (s - 1) ls) > cap)%Z).
Proof.
  unfold walk_backward.
  destruct (walk_forward_spec cap 0 (reverse ls)) as (m & Hm & Hle & Hin & Hout).
  rewrite length_reverse in *.
  assert (∀ k, k ≤ length ls →
               raw_length (take k (reverse ls)) = raw_length (drop (length ls - k) ls))
    as Hraw.
  { intros k Hk. rewrite take_reverse, raw_length_reverse. done. }
  exists (length ls - m). split; [|split; [lia|split]].
  - by rewrite Hm, take_reverse, reverse_involutive.
  - intros s' Hs' Hlt. specialize (Hin (length ls - s')).
    rewrite Hraw in Hin by lia.
    replace (length ls - (length ls - s')) with s' in Hin by lia. lia.
  - intros Hs. specialize (Hout ltac:(lia)). rewrite Hraw in Hout by lia.
    replace (length ls - (m + 1)) with (length ls - m - 1) in Hout by lia. lia.
Qed.

Lemma truncate_suffix_walk cap ls :
  truncate_suffix cap ls = join LF (walk_forward cap 0 ls).
Proof.
  unfold truncate_suffix.
  by rewrite (suffix_loop_walk ls cap (length ls) 0 0), take_0, drop_0.
Qed.

Lemma truncate_prefix_walk offset cap ls :
  truncate_prefix offset cap ls
  = if (Z.of_nat offset >? cap)%Z then join LF (walk_backward cap ls)
    else join LF ls.
Proof.
  unfold truncate_prefix, walk_backward.
  destruct (Z.of_nat offset >? cap)%Z; [|done].
  rewrite (prefix_loop_walk ls cap (length ls) 0) by done.
  by rewrite firstn_all, drop_all, app_nil_r.
Qed.

Lemma truncate_suffix_prefix cap text :
  truncate_suffix cap (lines text) `prefix_of` text.
Proof.
  rewrite truncate_suffix_walk.
  destruct (walk_forward_spec cap 0 (lines text)) as (m & -> & _).
  rewrite <- (join_lines text) at 2. apply join_take_prefix.
Qed.

Lemma truncate_prefix_suffix offset cap text :
  truncate_prefix offset cap (lines text) `suffix_of` text.
Proof.
  rewrite truncate_prefix_walk.
  destruct (Z.of_nat offset >? cap)%Z; [|by rewrite join_lines].
  destruct (walk_backward_spec cap (lines text)) as (s & -> & _).
  rewrite <- (join_lines text) at 2. apply join_drop_suffix.
Qed.

(** ** The injected prefix *)

Lemma slice_index_0 len : slice_index len 0 = 0.
Proof. done. Qed.

Lemma slice_index_le len i : slice_index len i ≤ len.
Proof. unfold slice_index. destruct (Z.ltb_spec i 0); lia. Qed.

Lemma slice_index_length len n : slice_index len (Z.of_nat n) = Nat.min n len.
Proof.
  unfold slice_index. destruct (Z.ltb_spec (Z.of_nat n) 0); [lia|].
  by rewrite Nat2Z.id.
Qed.

Lemma slice_0 s to : slice s 0 to = take (slice_index (length s) to) s.
Proof. unfold slice. by rewrite slice_index_0, Nat.sub_0_r, drop_0. Qed.

Lemma patch_prefix_none completePrefix position context :
  context ≫= selectedCompletionInfo = None →
  patch_prefix completePrefix position context = (completePrefix, None).
Proof. unfold patch_prefix. by intros ->. Qed.

(** With a selected completion, the patched prefix is some leading part of
    the text before the cursor followed by the completion's text, and the
    injected prefix is what of it lies past the old length. *)
Lemma patch_prefix_selected completePrefix position context info :
  context ≫= selectedCompletionInfo = Some info →
  ∃ e, e ≤ length completePrefix ∧
       fst (patch_prefix completePrefix position context)
       = take e completePrefix ++ text info ∧
       snd (patch_prefix completePrefix position context)
       = (if decide (drop (length completePrefix - e) (text info) = [])
          then None
          else Some (drop (length completePrefix - e) (text info))).
Proof.
  intros Hsel. unfold patch_prefix. rewrite Hsel. cbn [fst snd].
  rewrite slice_0. set (e := slice_index _ _).
  assert (e ≤ length completePrefix) by apply slice_index_le.
  exists e. split; [done|]. split; [done|].
  unfold slice_from. rewrite slice_index_length, length_app, length_take.
  replace (Nat.min (length completePrefix)
                   (Nat.min e (length completePrefix) + length (text info)))
    with (e + Nat.min (length completePrefix - e) (length (text info))) by lia.
  rewrite drop_app_ge by (rewrite length_take; lia).
  rewrite length_take.
  replace (e + Nat.min (length completePrefix - e) (length (text info))
           - Nat.min e (length completePrefix))
    with (Nat.min (length completePrefix - e) (length (text info))) by lia.
  destruct (decide (length completePrefix - e ≤ length (text info))).
  - by rewrite Nat.min_l by lia.
  - rewrite Nat.min_r by lia. rewrite !drop_ge by lia. done.
Qed.

(** The suffix window lies inside the text after the cursor, and without a
    selected completion the prefix window inside the text before it. *)
Lemma suffix_window_length params :
  length (truncate_suffix (Params.maxSuffixLength params)
                          (lines (post_cursor_text params)))
  ≤ length (getText (Params.document params)) - cursor_offset params.
Proof.
  unfold cursor_offset. rewrite <- completeSuffix_length.
  apply prefix_length, truncate_suffix_prefix.
Qed.

Lemma patched_prefix_none params :
  selected params = None → patched_prefix params = pre_cursor_text params.
Proof.
  intros Hnone. unfold patched_prefix, selected in *.
  by rewrite patch_prefix_none.
Qed.

Lemma prefix_window_length params :
  selected params = None →
  length (truncate_prefix (cursor_offset params) (Params.maxPrefixLength params)
                          (lines (patched_prefix params)))
  ≤ cursor_offset params.
Proof.
  intros Hnone. rewrite patched_prefix_none by done.
  unfold cursor_offset at 2. rewrite <- completePrefix_length.
  apply suffix_length, truncate_prefix_suffix.
Qed.

(** ** What getCurrentDocContext returns *)

Section Builder.
Context `{Collaborators}.
Variable params : Params.t.
Abbreviation d := (Params.document params).
Abbreviation pos := (Params.position params).

Lemma getCurrentDocContext_fields :
  line pos < lineCount d →
  ∃ ctx sem,
    getCurrentDocContext params = Returns ctx ∧
    getSemanticContextWithinDocument d pos 5 = Returns sem ∧
    DocumentContext.prefix ctx
    = truncate_prefix (cursor_offset params) (Params.maxPrefixLength params)
                      (lines (patched_prefix params)) ∧
    DocumentContext.suffix ctx
    = truncate_suffix (Params.maxSuffixLength params)
                      (lines (post_cursor_text params)) ∧
    DocumentContext.contextRange ctx
    = new_Range
        (positionAt d (Z.of_nat (cursor_offset params)
                       - Z.of_nat (length (DocumentContext.prefix ctx))))
        (positionAt d (Z.of_nat (cursor_offset params)
                       + Z.of_nat (length (DocumentContext.suffix ctx)))) ∧
    DocumentContext.injectedPrefix ctx
    = snd (patch_prefix (pre_cursor_text params) pos (Params.context params)) ∧
    DocumentContext.semanticContext ctx = join LF (semanticContext sem).
Proof.
  intros (currentLine & Hl & _)%lineAt_inside.
  unfold getCurrentDocContext, patched_prefix, pre_cursor_text,
    post_cursor_text, cursor_offset.
  destruct (patch_prefix _ _ _) as [patched injected].
  rewrite (getSemanticContextWithinDocument_Returns _ _ _ _ Hl).
  eexists. eexists. split; [reflexivity|]. split; [reflexivity|]. done.
Qed.

Lemma getCurrentDocContext_Throws :
  lineCount d ≤ line pos → getCurrentDocContext params = Throws IllegalLine.
Proof.
  intros Hl. unfold getCurrentDocContext.
  destruct (patch_prefix _ _ _) as [patched injected].
  by rewrite getSemanticContextWithinDocument_Throws.
Qed.
End Builder.

(** ** The claims about levenshteinDistance *)

(** C2: [levenshteinDistance a b] is the least number of single-character
    insertions, deletions and substitutions that transform [a] into [b]: that
    many edits do it, and no fewer do; against an empty string it is the
    length of the other string. *)
Theorem levenshteinDistance_least_edits (a b : jsstring) :
  edits (levenshteinDistance a b) a b ∧
  (∀ n, edits n a b → levenshteinDistance a b ≤ n) ∧
  levenshteinDistance [] b = length b ∧
  levenshteinDistance a [] = length a.
Proof.
  rewrite levenshteinDistance_ldist. split; [|split; [|split]].
  - rewrite <- (reverse_involutive a) at 2. rewrite <- (reverse_involutive b) at 2.
    apply edits_reverse, ldist_edits.
  - intros n Hn. by apply ldist_least, edits_reverse.
  - done.
  - unfold levenshteinDistance. case_decide as Ha; [|done].
    by apply nil_length_inv in Ha as ->.
Qed.

(** ** The claims about getCurrentDocContext *)

(** C1 (amended): the context range starts at the document position of
    offset - prefix.length and ends at the document position of
    offset + suffix.length; its end lies exactly suffix.length characters
    after the cursor; whenever the prefix is not longer than the cursor's
    offset, which is so whenever no completion is selected, its start lies
    exactly prefix.length characters before the cursor, and the range spans
    prefix.length + suffix.length characters.  In general it spans
    min(prefix.length, offset) + suffix.length characters. *)
Theorem contextRange_span `{Collaborators} (params : Params.t) :
  line (Params.position params) < lineCount (Params.document params) →
  ∃ ctx,
    getCurrentDocContext params = Returns ctx ∧
    let d := Params.document params in
    let offset := Z.of_nat (cursor_offset params) in
    let p := Z.of_nat (length (DocumentContext.prefix ctx)) in
    let s := Z.of_nat (length (DocumentContext.suffix ctx)) in
    let r := DocumentContext.contextRange ctx in
    range_start r = positionAt d (offset - p) ∧
    range_end r = positionAt d (offset + s) ∧
    Z.of_nat (offsetAt d (range_end r)) = (offset + s)%Z ∧
    range_span d r = (Z.min p offset + s)%Z ∧
    ((p ≤ offset)%Z →
     Z.of_nat (offsetAt d (range_start r)) = (offset - p)%Z ∧
     range_span d r = (p + s)%Z) ∧
    (selected params = None → (p ≤ offset)%Z).
Proof.
  intros Hline.
  destruct (getCurrentDocContext_fields params Hline)
    as (ctx & sem & Hret & _ & Hpre & Hsuf & Hrange & _ & _).
  exists ctx. split; [done|]. cbn zeta.
  set (d := Params.document params) in *.
  set (o := cursor_offset params) in *.
  set (p := length (DocumentContext.prefix ctx)) in *.
  set (s := length (DocumentContext.suffix ctx)) in *.
  assert (o ≤ length (getText d)) as Ho by apply offsetAt_le.
  assert (s ≤ length (getText d) - o) as Hs.
  { unfold s. rewrite Hsuf. apply suffix_window_length. }
  assert (DocumentContext.contextRange ctx
          = {| range_start := positionAt d (Z.of_nat o - Z.of_nat p);
               range_end := positionAt d (Z.of_nat o + Z.of_nat s) |}) as Hr.
  { rewrite Hrange. unfold new_Range, positionAt.
    by rewrite position_in_monotone by lia. }
  rewrite Hr. cbn [range_start range_end]. unfold range_span.
  cbn [range_start range_end]. rewrite !offsetAt_positionAt.
  split; [done|]. split; [done|]. split; [lia|]. split; [lia|].
  split; [lia|].
  intros Hnone. unfold p. rewrite Hpre.
  apply Nat2Z.inj_le. by apply prefix_window_length.
Qed.

(** C5: when the cursor's offset exceeds maxPrefixLength, the prefix is the
    newline-join of the lines the backward walk retains, which are the
    longest run of trailing lines of the (possibly patched) text before the
    cursor whose raw length stays within maxPrefixLength; otherwise the
    prefix is that whole text, which is the document's text before the
    cursor when no completion is selected. *)
Theorem prefix_truncation `{Collaborators} (params : Params.t) :
  line (Params.position params) < lineCount (Params.document params) →
  ∃ ctx,
    getCurrentDocContext params = Returns ctx ∧
    let prefixLines := lines (patched_prefix params) in
    let cap := Params.maxPrefixLength params in
    let offset := cursor_offset params in
    ((Z.of_nat offset > cap)%Z →
     DocumentContext.prefix ctx = join LF (walk_backward cap prefixLines) ∧
     ∃ startLine,
       startLine ≤ length prefixLines ∧
       DocumentContext.prefix ctx = join LF (drop startLine prefixLines) ∧
       (∀ i, startLine ≤ i → i < length prefixLines →
             (raw_length (drop i prefixLines) ≤ cap)%Z) ∧
       (0 < startLine → (raw_length (drop (startLine - 1) prefixLines) > cap)%Z)) ∧
    ((Z.of_nat offset ≤ cap)%Z →
     DocumentContext.prefix ctx = patched_prefix params) ∧
    (selected params = None →
     patched_prefix params = take offset (getText (Params.document params))).
Proof.
  intros Hline.
  destruct (getCurrentDocContext_fields params Hline)
    as (ctx & sem & Hret & _ & Hpre & _).
  exists ctx. split; [done|]. cbn zeta.
  rewrite Hpre, truncate_prefix_walk. split; [|split].
  - intros Hgt. rewrite (proj2 (Z.gtb_gt _ _)) by lia. split; [done|].
    destruct (walk_backward_spec (Params.maxPrefixLength params)
                (lines (patched_prefix params))) as (s & Hs & Hle & Hin & Hout).
    exists s. by rewrite Hs.
  - intros Hle. destruct (Z.gtb_spec (Z.of_nat (cursor_offset params))
                            (Params.maxPrefixLength params)); [lia|].
    apply join_lines.
  - intros Hnone. unfold patched_prefix, selected in *.
    rewrite patch_prefix_none by done. apply completePrefix_take.
Qed.

(** C6: the suffix is the newline-join of the lines the forward walk
    retains: the lines of the text after the cursor before the first line
    with which the raw length would exceed maxSuffixLength; it is empty when
    already the first line is longer than maxSuffixLength. *)
Theorem suffix_truncation `{Collaborators} (params : Params.t) :
  line (Params.position params) < lineCount (Params.document params) →
  ∃ ctx,
    getCurrentDocContext params = Returns ctx ∧
    let suffixLines := lines (post_cursor_text params) in
    let cap := Params.maxSuffixLength params in
    post_cursor_text params
    = drop (cursor_offset params) (getText (Params.document params)) ∧
    DocumentContext.suffix ctx = join LF (walk_forward cap 0 suffixLines) ∧
    (∃ endLine,
       endLine ≤ length suffixLines ∧
       DocumentContext.suffix ctx = join LF (take endLine suffixLines) ∧
       (∀ i, 0 < i → i ≤ endLine → (raw_length (take i suffixLines) ≤ cap)%Z) ∧
       (endLine < length suffixLines →
        (raw_length (take (endLine + 1) suffixLines) > cap)%Z)) ∧
    ((Z.of_nat (length (suffixLines !!! 0%nat)) > cap)%Z →
     DocumentContext.suffix ctx = []).
Proof.
  intros Hline.
  destruct (getCurrentDocContext_fields params Hline)
    as (ctx & sem & Hret & _ & _ & Hsuf & _).
  exists ctx. split; [done|]. cbn zeta.
  rewrite Hsuf, truncate_suffix_walk.
  split; [apply completeSuffix_drop|]. split; [done|]. split.
  - destruct (walk_forward_spec (Params.maxSuffixLength params) 0
                (lines (post_cursor_text params))) as (m & Hm & Hle & Hin & Hout).
    exists m. rewrite Hm. split; [done|]. split; [done|]. split.
    + intros i ? ?. specialize (Hin i). lia.
    + intros ?. specialize (Hout ltac:(done)). lia.
  - intros Hfirst. destruct (lines (post_cursor_text params)) as [|l ls]; [done|].
    cbn [walk_forward]. simpl in Hfirst.
    by rewrite (proj2 (Z.gtb_gt _ _)) by lia.
Qed.

(** C7: injectedPrefix is never the empty string; it is the "none" marker
    when no completion is selected, and also when one is selected and
    nothing of the patched prefix lies past the length of the text before
    the cursor; otherwise it is that non-empty rest. *)
Theorem injectedPrefix_never_empty `{Collaborators} (params : Params.t) :
  line (Params.position params) < lineCount (Params.document params) →
  ∃ ctx,
    getCurrentDocContext params = Returns ctx ∧
    let delta :=
      slice_from (patched_prefix params)
                 (Z.of_nat (length (pre_cursor_text params))) in
    DocumentContext.injectedPrefix ctx ≠ Some [] ∧
    (selected params = None → DocumentContext.injectedPrefix ctx = None) ∧
    (delta = [] → DocumentContext.injectedPrefix ctx = None) ∧
    (selected params ≠ None → delta ≠ [] →
     DocumentContext.injectedPrefix ctx = Some delta).
Proof.
  intros Hline.
  destruct (getCurrentDocContext_fields params Hline)
    as (ctx & sem & Hret & _ & _ & _ & _ & Hinj & _).
  exists ctx. split; [done|]. cbn zeta. rewrite Hinj.
  unfold patched_prefix, selected, patch_prefix.
  destruct (Params.context params ≫= selectedCompletionInfo) as [info|];
    cbn [fst snd].
  - case_decide as Hdelta.
    + split; [done|]. split; [done|]. split; [done|].
      intros _ Hne. by destruct Hne.
    + split; [intros [= Heq]; by destruct Hdelta|]. split; [done|].
      split; [intros Hd; by destruct Hdelta|done].
  - done.
Qed.

(** C9 (amended): an injected prefix that is present is a suffix of the
    patched text before the cursor and of the selected completion's text;
    its length is the number of characters by which the patched text is
    longer than the text before the cursor, and at most the length of the
    completion's text; it is a suffix of the returned prefix whenever it is
    not longer than the returned prefix, and so whenever the cursor's offset
    does not exceed maxPrefixLength and the prefix is not truncated;
    otherwise the returned prefix is a suffix of it. *)
Theorem injectedPrefix_suffix `{Collaborators} (params : Params.t) :
  line (Params.position params) < lineCount (Params.document params) →
  ∃ ctx,
    getCurrentDocContext params = Returns ctx ∧
    ∀ injected,
      DocumentContext.injectedPrefix ctx = Some injected →
      ∃ info,
        selected params = Some info ∧
        injected `suffix_of` patched_prefix params ∧
        injected `suffix_of` text info ∧
        length (patched_prefix params)
        = length (pre_cursor_text params) + length injected ∧
        length injected ≤ length (text info) ∧
        (injected `suffix_of` DocumentContext.prefix ctx ∨
         DocumentContext.prefix ctx `suffix_of` injected) ∧
        (length injected ≤ length (DocumentContext.prefix ctx) →
         injected `suffix_of` DocumentContext.prefix ctx) ∧
        ((Z.of_nat (cursor_offset params) ≤ Params.maxPrefixLength params)%Z →
         injected `suffix_of` DocumentContext.prefix ctx).
Proof.
  intros Hline.
  destruct (getCurrentDocContext_fields params Hline)
    as (ctx & sem & Hret & _ & Hpre & _ & _ & Hinj & _).
  exists ctx. split; [done|]. intros injected Hsome.
  rewrite Hinj in Hsome. unfold patched_prefix in *.
  destruct (selected params) as [info|] eqn:Hsel; unfold selected in Hsel.
  2: { by rewrite patch_prefix_none in Hsome. }
  exists info. split; [done|].
  destruct (patch_prefix_selected (pre_cursor_text params)
              (Params.position params) _ _ Hsel) as (e & He & Hfst & Hsnd).
  rewrite Hsnd in Hsome. case_decide as Hne; [done|].
  injection Hsome as <-.
  assert (length (pre_cursor_text params) - e < length (text info)) as Hlt.
  { destruct (decide (length (pre_cursor_text params) - e < length (text info)));
      [done|]. destruct Hne. apply drop_ge. lia. }
  assert (drop (length (pre_cursor_text params) - e) (text info)
            `suffix_of` fst (patch_prefix (pre_cursor_text params)
                                          (Params.position params)
                                          (Params.context params))) as Hsuffix.
  { rewrite Hfst. apply suffix_app_r, suffix_drop. }
  assert (DocumentContext.prefix ctx
            `suffix_of` fst (patch_prefix (pre_cursor_text params)
                                          (Params.position params)
                                          (Params.context params))) as Hwindow.
  { rewrite Hpre. apply truncate_prefix_suffix. }
  split; [done|]. split; [apply suffix_drop|]. split; [|split; [|split; [|split]]].
  - rewrite Hfst, length_app, length_take, length_drop. lia.
  - rewrite length_drop. lia.
  - by eapply suffix_weak_total.
  - intros Hlen.
    destruct (suffix_weak_total _ _ _ Hsuffix Hwindow) as [|Hrev]; [done|].
    by rewrite (suffix_length_eq _ _ Hrev Hlen).
  - intros Hle. rewrite Hpre, truncate_prefix_walk.
    destruct (Z.gtb_spec (Z.of_nat (cursor_offset params))
                (Params.maxPrefixLength params)); [lia|].
    by rewrite join_lines.
Qed.

(** C8 (amended): a document has at least one line, and for every cursor on
    one of its lines (the empty document, the start and the end of the
    document and empty lines included) getCurrentDocContext returns a
    DocumentContext and throws nothing; in a document of fewer than five
    lines, so in the empty document, the semantic context is the empty
    block with score 0.  In the empty document the suffix is empty; with no
    completion selected the prefix is empty and the injected prefix is
    "none"; with a completion selected and a prefix cap that is not
    negative the prefix is the completion's text, and so is the injected
    prefix, or "none" when that text is empty. *)
Theorem getCurrentDocContext_degenerate `{Collaborators} (params : Params.t) :
  line (Params.position params) < lineCount (Params.document params) →
  ∃ ctx,
    getCurrentDocContext params = Returns ctx ∧
    let d := Params.document params in
    0 < lineCount d ∧
    (lineCount d < 5 →
     getSemanticContextWithinDocument d (Params.position params) 5
     = Returns no_match ∧
     DocumentContext.semanticContext ctx = []) ∧
    (getText d = [] →
     lineCount d = 1 ∧
     DocumentContext.suffix ctx = [] ∧
     (selected params = None →
      DocumentContext.prefix ctx = [] ∧
      DocumentContext.injectedPrefix ctx = None) ∧
     (∀ info, selected params = Some info →
              (0 ≤ Params.maxPrefixLength params)%Z →
              DocumentContext.prefix ctx = text info ∧
              DocumentContext.injectedPrefix ctx
              = if decide (text info = []) then None else Some (text info))).
Proof.
  intros Hline.
  destruct (getCurrentDocContext_fields params Hline)
    as (ctx & sem & Hret & Hsem & Hpre & Hsuf & _ & Hinj & Hsc).
  exists ctx. split; [done|]. cbn zeta.
  split; [apply lineCount_pos|]. split.
  - intros Hfew. assert (sem = no_match) as ->; [|by rewrite Hsem, Hsc].
    destruct (lineAt_inside _ _ Hline) as (currentLine & Hl & _).
    rewrite (getSemanticContextWithinDocument_Returns _ _ _ _ Hl) in Hsem.
    injection Hsem as <-. unfold candidates.
    by replace (Z.to_nat _) with 0 by lia.
  - intros Hempty.
    pose proof (suffix_window_length params) as Hs.
    pose proof (offsetAt_le (Params.document params) (Params.position params))
      as Ho.
    rewrite <- Hsuf in Hs. fold (cursor_offset params) in Ho.
    rewrite Hempty in Hs, Ho. simpl in Ho, Hs.
    assert (pre_cursor_text params = []) as Hnil.
    { unfold pre_cursor_text. rewrite completePrefix_take, Hempty.
      apply take_nil. }
    split; [unfold lineCount, doc_lines; by rewrite Hempty|].
    split; [apply nil_length_inv; lia|]. split.
    + intros Hnone. pose proof (prefix_window_length params Hnone) as Hp.
      rewrite <- Hpre in Hp.
      split; [apply nil_length_inv; lia|].
      rewrite Hinj. unfold selected in Hnone. by rewrite patch_prefix_none.
    + intros info Hsel Hcap.
      destruct (patch_prefix_selected (pre_cursor_text params)
                  (Params.position params) _ _ Hsel) as (e & _ & Hfst & Hsnd).
      rewrite Hnil in Hfst, Hsnd. rewrite take_nil in Hfst. simpl in Hfst, Hsnd.
      split; [|by rewrite Hinj, Hnil].
      rewrite Hpre, truncate_prefix_walk.
      destruct (Z.gtb_spec (Z.of_nat (cursor_offset params))
                  (Params.maxPrefixLength params)); [lia|].
      rewrite join_lines. unfold patched_prefix. by rewrite Hnil.
Qed.

(** C10: the candidate blocks are not kept away from the cursor: there is a
    call whose semantic context is a block that starts at or before the
    cursor's line, ends after it, and contains the current line. *)
Theorem semanticContext_may_hold_current_line `{Collaborators} :
  ∃ params ctx currentLine sem i,
    let d := Params.document params in
    let position := Params.position params in
    getCurrentDocContext params = Returns ctx ∧
    doc_lines d !! line position = Some currentLine ∧
    getSemanticContextWithinDocument d position 5 = Returns sem ∧
    semanticContext sem = block_at d i 5 ∧
    i ≤ line position < i + 5 ∧
    currentLine ∈ semanticContext sem ∧
    DocumentContext.semanticContext ctx = join LF (semanticContext sem).
Proof.
  destruct (getCurrentDocContext_fields in_five_lines)
    as (ctx & sem & Hret & Hsem & _ & _ & _ & _ & Hsc); [vm_compute; lia|].
  exists in_five_lines, ctx, (js "bar"), sem, 0. cbn zeta.
  split; [done|]. split; [done|]. split; [done|].
  vm_compute in Hsem. injection Hsem as <-.
  split; [done|]. split; [simpl; lia|]. split; [|done].
  apply list_elem_of_In. vm_compute. tauto.
Qed.

(** ** The claims on the example calls *)

Lemma contextRange_span_witness :
  ∃ ctx,
    @getCurrentDocContext silent in_five_lines = Returns ctx ∧
    range_span five_lines (DocumentContext.contextRange ctx)
    = (Z.of_nat (length (DocumentContext.prefix ctx))
       + Z.of_nat (length (DocumentContext.suffix ctx)))%Z.
Proof.
  destruct (@contextRange_span silent in_five_lines)
    as (ctx & Hret & _ & _ & _ & _ & Hspan & Hle); [vm_compute; lia|].
  exists ctx. split; [exact Hret|]. apply Hspan, Hle. reflexivity.
Defined.

(** With a completion selected for the only character of the document, the
    prefix is three characters long, the suffix is empty, and the context
    range spans the one character of the document. *)
Lemma contextRange_span_counterexample :
  ∃ ctx,
    @getCurrentDocContext silent completing_a = Returns ctx ∧
    (0 < Params.maxPrefixLength completing_a)%Z ∧
    (0 < Params.maxSuffixLength completing_a)%Z ∧
    DocumentContext.prefix ctx = js "abc" ∧
    DocumentContext.suffix ctx = [] ∧
    range_span (Params.document completing_a) (DocumentContext.contextRange ctx)
    = 1%Z ∧
    range_span (Params.document completing_a) (DocumentContext.contextRange ctx)
    ≠ (Z.of_nat (length (DocumentContext.prefix ctx))
       + Z.of_nat (length (DocumentContext.suffix ctx)))%Z.
Proof.
  eexists. split; [vm_compute; reflexivity|].
  vm_compute. repeat split; discriminate.
Qed.

Lemma getSemanticContextWithinDocument_maximal_witness :
  ∃ result,
    getSemanticContextWithinDocument five_lines {| line := 0; character := 3 |} 2
    = Returns result ∧
    semanticContext result = [js "foo"; js "bar"] ∧
    similarityScore result = 1%float.
Proof.
  destruct (getSemanticContextWithinDocument_maximal
              five_lines {| line := 0; character := 3 |} 2)
    as (currentLine & result & _ & Hret & _); [vm_compute; lia|].
  exists result. split; [exact Hret|].
  vm_compute in Hret. injection Hret as <-. split; reflexivity.
Defined.

(** In the five lines, the blocks of two lines at 0, 2 and 3 all score 1
    against [foo]; the block at 0 is the one returned. *)
Lemma getSemanticContextWithinDocument_first_wins_witness :
  score_at five_lines (js "foo") 0 2 = score_at five_lines (js "foo") 3 2 ∧
  getSemanticContextWithinDocument five_lines {| line := 0; character := 3 |} 2
  = Returns {| semanticContext := block_at five_lines 0 2;
               similarityScore := score_at five_lines (js "foo") 0 2 |}.
Proof.
  split; [by vm_compute|].
  destruct (getSemanticContextWithinDocument_first_wins
              five_lines {| line := 0; character := 3 |} 2 (js "foo"))
    as [Hfirst _]; [reflexivity|].
  apply Hfirst.
  - vm_compute. lia.
  - by vm_compute.
  - intros j Hj. change (lineCount five_lines) with 5 in Hj.
    destruct j as [|[|[|[|j]]]]; [by vm_compute..|lia].
  - intros j Hj. lia.
Defined.

(** With the cursor on the empty first line of the seven lines, the blocks
    of five lines at 1 and 2 both score 0 and no block scores more (the
    block at 0 holds the empty line and scores NaN); the block at 1 is the
    first to reach the highest score, and what is returned is the empty
    block, not the block at 1. *)
Lemma getSemanticContextWithinDocument_first_wins_counterexample :
  let d := empty_first_line in
  let position := {| line := 0; character := 0 |} in
  doc_lines d !! line position = Some [] ∧
  score_at d [] 1 5 = 0%float ∧
  score_at d [] 2 5 = 0%float ∧
  (∀ j, j + 5 ≤ lineCount d →
        gt (score_at d [] j 5) (score_at d [] 1 5) = false) ∧
  (∀ j, j < 1 → (score_at d [] j 5 =? score_at d [] 1 5)%float = false) ∧
  getSemanticContextWithinDocument d position 5 = Returns no_match ∧
  getSemanticContextWithinDocument d position 5
  ≠ Returns {| semanticContext := block_at d 1 5;
               similarityScore := score_at d [] 1 5 |}.
Proof.
  cbn zeta. split; [reflexivity|]. split; [by vm_compute|].
  split; [by vm_compute|]. split; [|split; [|split]].
  - intros j Hj. change (lineCount empty_first_line) with 7 in Hj.
    destruct j as [|[|[|j]]]; [by vm_compute..|lia].
  - intros j Hj. destruct j as [|j]; [by vm_compute|lia].
  - by vm_compute.
  - by vm_compute.
Qed.

Lemma prefix_truncation_witness :
  ∃ ctx,
    @getCurrentDocContext silent in_five_lines = Returns ctx ∧
    DocumentContext.prefix ctx
    = join LF (walk_backward 4 (lines (patched_prefix in_five_lines))) ∧
    DocumentContext.prefix ctx = js "ba".
Proof.
  destruct (@prefix_truncation silent in_five_lines)
    as (ctx & Hret & Hcut & _); [vm_compute; lia|].
  exists ctx. split; [exact Hret|].
  destruct Hcut as [Hwalk _]; [vm_compute; reflexivity|].
  split; [exact Hwalk|]. rewrite Hwalk. reflexivity.
Defined.

Lemma suffix_truncation_witness :
  ∃ ctx,
    @getCurrentDocContext silent in_five_lines = Returns ctx ∧
    DocumentContext.suffix ctx
    = join LF (walk_forward 4 0 (lines (post_cursor_text in_five_lines))).
Proof.
  destruct (@suffix_truncation silent in_five_lines)
    as (ctx & Hret & _ & Hwalk & _); [vm_compute; lia|].
  exists ctx. split; [exact Hret|exact Hwalk].
Defined.

Lemma injectedPrefix_never_empty_witness :
  ∃ ctx,
    @getCurrentDocContext silent in_five_lines = Returns ctx ∧
    DocumentContext.injectedPrefix ctx = None.
Proof.
  destruct (@injectedPrefix_never_empty silent in_five_lines)
    as (ctx & Hret & _ & Hnone & _); [vm_compute; lia|].
  exists ctx. split; [exact Hret|]. apply Hnone. reflexivity.
Defined.

Lemma getCurrentDocContext_degenerate_witness :
  (∃ ctx,
     @getCurrentDocContext silent in_empty_document = Returns ctx ∧
     getSemanticContextWithinDocument (Params.document in_empty_document)
       (Params.position in_empty_document) 5 = Returns no_match ∧
     DocumentContext.semanticContext ctx = [] ∧
     DocumentContext.prefix ctx = [] ∧
     DocumentContext.suffix ctx = [] ∧
     DocumentContext.injectedPrefix ctx = None) ∧
  (∃ ctx,
     @getCurrentDocContext silent completing_in_empty_document = Returns ctx ∧
     DocumentContext.semanticContext ctx = [] ∧
     DocumentContext.prefix ctx = js "abc" ∧
     DocumentContext.suffix ctx = [] ∧
     DocumentContext.injectedPrefix ctx = Some (js "abc")).
Proof.
  split.
  - destruct (@getCurrentDocContext_degenerate silent in_empty_document)
      as (ctx & Hret & _ & Hfew & Hempty); [vm_compute; lia|].
    exists ctx. split; [exact Hret|].
    destruct Hfew as [Hsem Hsc]; [vm_compute; lia|].
    destruct Hempty as (_ & Hs & Hnone & _); [reflexivity|].
    destruct Hnone as [Hp Hi]; [reflexivity|].
    repeat split; assumption.
  - destruct (@getCurrentDocContext_degenerate silent
                completing_in_empty_document)
      as (ctx & Hret & _ & Hfew & Hempty); [vm_compute; lia|].
    exists ctx. split; [exact Hret|].
    destruct Hfew as [_ Hsc]; [vm_compute; lia|].
    destruct Hempty as (_ & Hs & _ & Hsome); [reflexivity|].
    destruct (Hsome {| range := new_Range {| line := 0; character := 0 |}
                                          {| line := 0; character := 0 |};
                       text := js "abc" |}) as [Hp Hi];
      [reflexivity|vm_compute; discriminate|].
    repeat split; assumption.
Defined.

(** At the start of a document of five equal lines and an empty last line
    the call returns, and its semantic context is the five lines, with score
    5, not the empty block with score 0. *)
Lemma getCurrentDocContext_degenerate_counterexample :
  ∃ ctx,
    @getCurrentDocContext silent at_document_start = Returns ctx ∧
    Params.position at_document_start = {| line := 0; character := 0 |} ∧
    getSemanticContextWithinDocument (Params.document at_document_start)
      (Params.position at_document_start) 5
    = Returns {| semanticContext := replicate 5 (js "ab");
                 similarityScore := 5%float |} ∧
    DocumentContext.semanticContext ctx ≠ [].
Proof.
  eexists. split; [vm_compute; reflexivity|].
  split; [reflexivity|]. split; [by vm_compute|]. by vm_compute.
Qed.

Lemma injectedPrefix_suffix_witness :
  ∃ ctx,
    @getCurrentDocContext silent completing_a = Returns ctx ∧
    DocumentContext.injectedPrefix ctx = Some (js "bc") ∧
    js "bc" `suffix_of` DocumentContext.prefix ctx.
Proof.
  destruct (@injectedPrefix_suffix silent completing_a)
    as (ctx & Hret & Hinj); [vm_compute; lia|].
  exists ctx. split; [exact Hret|].
  assert (DocumentContext.injectedPrefix ctx = Some (js "bc")) as Hsome.
  { vm_compute in Hret. injection Hret as <-. reflexivity. }
  split; [exact Hsome|].
  destruct (Hinj _ Hsome) as (info & _ & _ & _ & _ & _ & _ & _ & Hsuffix).
  apply Hsuffix. vm_compute. discriminate.
Defined.

(** Past the prefix cap, the one line of the patched prefix is longer than
    the cap: the prefix is empty, and the injected prefix [ijkl] is no suffix
    of it. *)
Lemma injectedPrefix_suffix_counterexample :
  ∃ ctx injected,
    @getCurrentDocContext silent completing_past_cap = Returns ctx ∧
    DocumentContext.injectedPrefix ctx = Some injected ∧
    injected = js "ijkl" ∧
    DocumentContext.prefix ctx = [] ∧
    ¬ injected `suffix_of` DocumentContext.prefix ctx.
Proof.
  eexists. eexists. split; [vm_compute; reflexivity|].
  split; [reflexivity|]. split; [reflexivity|]. split; [reflexivity|].
  cbn [DocumentContext.prefix]. by intros ?%suffix_nil_inv.
Qed.

(** * Further properties *)

(** ** The edit distance as a metric *)

Section EditSequences.
Context {A : Type}.
Implicit Types a b c : list A.

Lemma edit1_sym a b : edit1 a b → edit1 b a.
Proof. destruct 1; constructor. Qed.

Lemma edits_trans n m a b c : edits n a b → edits m b c → edits (n + m) a c.
Proof.
  induction 1 as [a|n a a' b Ha _ IH]; intros Hbc; [done|].
  simpl. econstructor; [done|]. by apply IH.
Qed.

Lemma edits_sym n a b : edits n a b → edits n b a.
Proof.
  induction 1 as [a|n a a' b Ha _ IH]; [constructor|].
  replace (S n) with (n + 1) by lia.
  eapply edits_trans; [done|].
  econstructor; [by apply edit1_sym|constructor].
Qed.

Lemma edit1_length a b :
  edit1 a b → length a ≤ length b + 1 ∧ length b ≤ length a + 1.
Proof. destruct 1; rewrite !length_app; simpl; lia. Qed.

Lemma edits_length n a b :
  edits n a b → length a ≤ length b + n ∧ length b ≤ length a + n.
Proof.
  induction 1 as [a|n a a' b Ha%edit1_length _ IH]; [lia|]. lia.
Qed.

Lemma edits_0_eq a b : edits 0 a b → a = b.
Proof. by inversion 1. Qed.
End EditSequences.

Lemma ldist_le_max `{EqDecision A} (a b : list A) :
  ldist a b ≤ Nat.max (length a) (length b).
Proof.
  revert b. induction a as [|x a IH]; intros b; [simpl; lia|].
  destruct b as [|y b]; [rewrite ldist_nil_r; lia|].
  rewrite ldist_cons. specialize (IH b).
  pose proof (subst_cost_le x y). simpl. lia.
Qed.

Lemma levenshteinDistance_edits (a b : jsstring) :
  edits (levenshteinDistance a b) a b.
Proof.
  rewrite levenshteinDistance_ldist.
  rewrite <- (reverse_involutive a) at 2. rewrite <- (reverse_involutive b) at 2.
  apply edits_reverse, ldist_edits.
Qed.

Lemma levenshteinDistance_le_edits n (a b : jsstring) :
  edits n a b → levenshteinDistance a b ≤ n.
Proof.
  intros Hn. rewrite levenshteinDistance_ldist.
  by apply ldist_least, edits_reverse.
Qed.

Lemma levenshteinDistance_le_sym (a b : jsstring) :
  levenshteinDistance a b ≤ levenshteinDistance b a.
Proof.
  apply levenshteinDistance_le_edits, edits_sym, levenshteinDistance_edits.
Qed.

(** X1: the distance does not depend on the order of its two arguments. *)
Theorem levenshteinDistance_sym (a b : jsstring) :
  levenshteinDistance a b = levenshteinDistance b a.
Proof.
  pose proof (levenshteinDistance_le_sym a b).
  pose proof (levenshteinDistance_le_sym b a). lia.
Qed.

(** X2: the distance is at least the difference of the two lengths and at
    most the greater of them. *)
Theorem levenshteinDistance_bounds (a b : jsstring) :
  length a - length b ≤ levenshteinDistance a b ∧
  length b - length a ≤ levenshteinDistance a b ∧
  levenshteinDistance a b ≤ Nat.max (length a) (length b).
Proof.
  pose proof (edits_length _ _ _ (levenshteinDistance_edits a b)).
  split; [lia|]. split; [lia|].
  rewrite levenshteinDistance_ldist.
  pose proof (ldist_le_max (reverse a) (reverse b)) as Hmax.
  by rewrite !length_reverse in Hmax.
Qed.

(** X3: the distance is 0 exactly between a string and itself. *)
Theorem levenshteinDistance_zero (a b : jsstring) :
  levenshteinDistance a b = 0 ↔ a = b.
Proof.
  split.
  - intros H0. apply edits_0_eq. rewrite <- H0. apply levenshteinDistance_edits.
  - intros ->. apply Nat.le_0_r, levenshteinDistance_le_edits. constructor.
Qed.

(** X4: the triangle inequality: going through a third string is never
    shorter. *)
Theorem levenshteinDistance_triangle (a b c : jsstring) :
  levenshteinDistance a c ≤ levenshteinDistance a b + levenshteinDistance b c.
Proof.
  apply levenshteinDistance_le_edits.
  eapply edits_trans; apply levenshteinDistance_edits.
Qed.

(** X5: when the loops of [levenshteinDistance] are done, every cell of the
    table, not only the last one, holds a distance: row [i], column [j] holds
    the distance between the first [j] code units of [text1] and the first [i]
    code units of [text2]. *)
Theorem levenshteinDistance_table (text1 text2 : jsstring) (i j : nat) :
  i ≤ length text2 → j ≤ length text1 →
  cell (populate_matrix text1 text2
          (init_matrix (length text1) (length text2))) i j
  = levenshteinDistance (take j text1) (take i text2).
Proof.
  intros Hi Hj.
  destruct (populate_matrix_filled _ _ _ (init_matrix_filled text1 text2))
    as (_ & _ & Hcells).
  rewrite Hcells by lia. by rewrite levenshteinDistance_ldist.
Qed.

(** X6: the similarity of two lines does not depend on their order. *)
Theorem semanticSimilarity_sym (text1 text2 : jsstring) :
  semanticSimilarity text1 text2 = semanticSimilarity text2 text1.
Proof.
  unfold semanticSimilarity.
  replace (levenshteinDistance text2 text1)
    with (levenshteinDistance text1 text2)
    by (apply Nat.le_antisymm; apply levenshteinDistance_le_sym).
  by rewrite Nat.max_comm.
Qed.

(** ** Scores against an empty current line *)

Lemma Prim2SF_one : Prim2SF 1%float = S754_finite false 4503599627370496 (-52).
Proof. by vm_compute. Qed.

(** A finite number divided by itself is 1: the quotient of the mantissas is
    exact. *)
Lemma SF64div_self s m e :
  SF64div (S754_finite s m e) (S754_finite s m e) = Prim2SF 1%float.
Proof.
  rewrite Prim2SF_one. unfold SF64div, SFdiv, SFdiv_core_binary.
  rewrite Z.sub_diag, Z.sub_diag.
  change (Z.min (fexp prec emax 0) 0) with (-53)%Z.
  change (0 - -53)%Z with 53%Z. cbv iota beta.
  rewrite Z.shiftl_mul_pow2 by lia.
  destruct (Z.div_eucl (Z.pos m * 2 ^ 53) (Z.pos m)) as [q r] eqn:Hdiv.
  assert (q = (2 ^ 53)%Z ∧ r = 0%Z) as [-> ->].
  { pose proof (Z.div_mul (2 ^ 53) (Z.pos m) ltac:(lia)) as Hq.
    pose proof (Z_mod_mult (2 ^ 53) (Z.pos m)) as Hr.
    rewrite (Z.mul_comm (2 ^ 53)) in Hq, Hr.
    unfold Z.div, Z.modulo in Hq, Hr. rewrite Hdiv in Hq, Hr.
    split; [exact Hq|exact Hr]. }
  assert (new_location (Z.pos m) 0 = loc_Exact) as ->.
  { unfold new_location, new_location_even, new_location_odd.
    by destruct (Z.even (Z.pos m)). }
  rewrite xorb_nilpotent. by vm_compute.
Qed.

(** Any number divided by itself is 1 or NaN. *)
Lemma div_self (x : number) :
  (x / x)%float = 1%float ∨ ¬ is_number (x / x)%float.
Proof.
  unfold is_number.
  pose proof (div_spec x x) as Hdiv.
  destruct (Prim2SF x) as [s|s| |s m e] eqn:Hx.
  - right. rewrite Hdiv. by intros [].
  - right. rewrite Hdiv. by intros [].
  - right. rewrite Hdiv. by intros [].
  - left. rewrite SF64div_self in Hdiv. by apply Prim2SF_inj.
Qed.

Lemma sub_nan_r (a b : number) : ¬ is_number b → ¬ is_number (a - b)%float.
Proof.
  unfold is_number. intros Hb Hsub. apply Hsub.
  rewrite sub_spec. destruct (Prim2SF b); try (by destruct Hb).
  unfold SF64sub, SFsub. by destruct (Prim2SF a).
Qed.

Lemma add_nan_l (a b : number) : ¬ is_number a → ¬ is_number (a + b)%float.
Proof.
  unfold is_number. intros Ha Hadd. apply Hadd.
  rewrite add_spec. destruct (Prim2SF a); try (by destruct Ha). done.
Qed.

Lemma add_nan_r (a b : number) : ¬ is_number b → ¬ is_number (a + b)%float.
Proof.
  unfold is_number. intros Hb Hadd. apply Hadd.
  rewrite add_spec. destruct (Prim2SF b); try (by destruct Hb).
  unfold SF64add, SFadd. by destruct (Prim2SF a).
Qed.

Lemma not_gt_nan (a b : number) : ¬ is_number a → gt a b = false.
Proof.
  intros Ha. destruct (gt a b) eqn:Hgt; [|done].
  by apply gt_is_number in Hgt as [].
Qed.

(** Against the empty line every line scores 0 or NaN: its distance is its
    own length, which is also the greater of the two lengths. *)
Lemma semanticSimilarity_empty_l (l : jsstring) :
  semanticSimilarity [] l = 0%float ∨ ¬ is_number (semanticSimilarity [] l).
Proof.
  unfold semanticSimilarity, levenshteinDistance. simpl.
  destruct (div_self (of_nat (length l))) as [->|Hnan].
  - left. by vm_compute.
  - right. by apply sub_nan_r.
Qed.

Lemma aggregateSimilarityScore_empty_l (block : list jsstring) :
  aggregateSimilarityScore [] block = 0%float ∨
  ¬ is_number (aggregateSimilarityScore [] block).
Proof.
  unfold aggregateSimilarityScore.
  induction block as [|l block IH] using rev_ind; [by left|].
  rewrite foldl_app. simpl.
  destruct IH as [->|Hnan]; [|right; by apply add_nan_l].
  destruct (semanticSimilarity_empty_l l) as [->|Hnan].
  - left. by vm_compute.
  - right. by apply add_nan_r.
Qed.

Lemma score_at_empty_l d i k : gt (score_at d [] i k) 0%float = false.
Proof.
  unfold score_at.
  destruct (aggregateSimilarityScore_empty_l (block_at d i k)) as [->|Hnan].
  - by vm_compute.
  - by apply not_gt_nan.
Qed.

(** X7: with the cursor on an empty line no block scores above 0 (every line
    scores 0 against the empty line, or NaN when it is empty too): the search
    returns the empty block with score 0, whatever the document and the
    window, and the semantic context of getCurrentDocContext is empty. *)
Theorem getSemanticContextWithinDocument_empty_line `{Collaborators}
    (params : Params.t) :
  let d := Params.document params in
  let position := Params.position params in
  doc_lines d !! line position = Some [] →
  (∀ k, getSemanticContextWithinDocument d position k = Returns no_match) ∧
  ∃ ctx,
    getCurrentDocContext params = Returns ctx ∧
    DocumentContext.semanticContext ctx = [].
Proof.
  cbn zeta. intros Hl.
  assert (∀ k, getSemanticContextWithinDocument (Params.document params)
                 (Params.position params) k = Returns no_match) as Hsearch.
  { intros k. rewrite (getSemanticContextWithinDocument_Returns _ _ _ _ Hl).
    destruct (scanned_all (Params.document params) [] k
                (length (candidates (Params.document params) k)))
      as [[Hst _]|(i & _ & _ & Hpos & _)].
    - unfold candidates in *. rewrite length_seq in Hst. by rewrite Hst.
    - by rewrite score_at_empty_l in Hpos. }
  split; [done|].
  destruct (getCurrentDocContext_fields params)
    as (ctx & sem & Hret & Hsem & _ & _ & _ & _ & Hsc).
  { by apply lookup_lt_Some in Hl. }
  exists ctx. split; [done|].
  rewrite Hsearch in Hsem. injection Hsem as <-. by rewrite Hsc.
Qed.

Lemma aggregateSimilarityScore_nan (acc : number) currentLine block :
  ¬ is_number acc →
  ¬ is_number (foldl (fun acc l => (acc + semanticSimilarity currentLine l)%float)
                     acc block).
Proof.
  revert acc. induction block as [|l block IH]; intros acc Hacc; [done|].
  simpl. by apply IH, add_nan_l.
Qed.

(** X8: two empty lines have no similarity: the quotient 0 / 0 is NaN; a
    block with an empty line in it then has a NaN score against the empty
    current line, which no comparison finds greater or smaller than
    anything. *)
Theorem semanticSimilarity_empty_empty (block : list jsstring) (x : number) :
  [] ∈ block →
  ¬ is_number (semanticSimilarity [] []) ∧
  ¬ is_number (aggregateSimilarityScore [] block) ∧
  gt (aggregateSimilarityScore [] block) x = false ∧
  gt x (aggregateSimilarityScore [] block) = false.
Proof.
  intros Hin.
  assert (¬ is_number (semanticSimilarity [] [])) as Hnan.
  { unfold is_number. intros Hn. apply Hn. by vm_compute. }
  assert (¬ is_number (aggregateSimilarityScore [] block)) as Hagg.
  { unfold aggregateSimilarityScore. generalize 0%float.
    induction block as [|l block IH]; intros acc; [by apply elem_of_nil in Hin|].
    simpl. apply elem_of_cons in Hin as [<-|Hin]; [|by apply IH].
    by apply aggregateSimilarityScore_nan, add_nan_r. }
  split; [done|]. split; [done|]. split; [by apply not_gt_nan|].
  destruct (gt x _) eqn:Hgt; [|done]. by apply gt_is_number in Hgt as [].
Qed.

(** ** More on lines *)

Lemma split_lines_no_LF text : Forall (fun l => LF ∉ l) (split_lines text).
Proof.
  induction text as [|c text IH]; simpl.
  - constructor; [|done]. apply not_elem_of_nil.
  - case_decide as Hc.
    + constructor; [apply not_elem_of_nil|done].
    + destruct (split_lines text) as [|l ls].
      { constructor; [|done]. rewrite not_elem_of_cons.
        split; [congruence|apply not_elem_of_nil]. }
      apply Forall_cons in IH as [Hl Hls]. constructor; [|done].
      rewrite not_elem_of_cons. split; [congruence|done].
Qed.

(** A text without line feeds is its own single line; in front of another
    text it joins that text's first line. *)
Lemma split_lines_app_no_LF a b :
  LF ∉ a →
  split_lines (a ++ b)
  = (a ++ split_lines b !!! 0) :: drop 1 (split_lines b).
Proof.
  intros Ha. pose proof (split_lines_nonempty b) as Hb.
  induction a as [|c a IH]; simpl.
  - destruct (split_lines b); done.
  - apply not_elem_of_cons in Ha as [Hc Ha]. case_decide; [congruence|].
    rewrite IH by done. done.
Qed.

Lemma split_lines_single a : LF ∉ a → split_lines a = [a].
Proof.
  intros Ha. rewrite <- (app_nil_r a) at 1.
  rewrite split_lines_app_no_LF by done. simpl. by rewrite app_nil_r.
Qed.

Lemma split_lines_app_LF a b :
  LF ∉ a → split_lines (a ++ LF :: b) = a :: split_lines b.
Proof.
  intros Ha. rewrite split_lines_app_no_LF by done.
  change (split_lines (LF :: b)) with ([] :: split_lines b).
  simpl. by rewrite app_nil_r.
Qed.

(** Splitting what was joined gives the lines back. *)
Lemma split_lines_join ls :
  ls ≠ [] → Forall (fun l => LF ∉ l) ls → split_lines (join LF ls) = ls.
Proof.
  intros Hne Hall. induction Hall as [|l [|l' ls] Hl Hls IH]; [done|..].
  - by apply split_lines_single.
  - rewrite join_cons, split_lines_app_LF by done. f_equal. by apply IH.
Qed.

Lemma visible_length_app a b :
  visible_length (a ++ b) = visible_length a + visible_length b.
Proof. unfold visible_length. by rewrite filter_app, length_app. Qed.

Lemma visible_length_no_LF a : LF ∉ a → visible_length a = length a.
Proof.
  unfold visible_length. induction a as [|c a IH]; [done|].
  intros [Hc Ha]%not_elem_of_cons. rewrite filter_cons_True by congruence.
  simpl. by rewrite IH.
Qed.

Lemma visible_length_le a : visible_length a ≤ length a.
Proof. apply length_filter. Qed.

(** The raw length of lines counts the code units of their join that are
    not line feeds. *)
Lemma visible_length_join ls :
  Forall (fun l => LF ∉ l) ls →
  Z.of_nat (visible_length (join LF ls)) = raw_length ls.
Proof.
  induction 1 as [|l [|l' ls] Hl Hls IH].
  - done.
  - simpl. rewrite visible_length_no_LF by done. lia.
  - rewrite join_cons, raw_length_cons, visible_length_app.
    rewrite visible_length_no_LF by done.
    change (LF :: join LF (l' :: ls)) with ([LF] ++ join LF (l' :: ls)).
    rewrite visible_length_app. change (visible_length [LF]) with 0. lia.
Qed.

Lemma raw_length_nonneg ls : (0 ≤ raw_length ls)%Z.
Proof. induction ls; [done|]. rewrite raw_length_cons. lia. Qed.

Lemma raw_length_le_join ls : (raw_length ls ≤ Z.of_nat (length (join LF ls)))%Z.
Proof.
  induction ls as [|l [|l' ls] IH]; [done|simpl; lia|].
  rewrite join_cons, raw_length_cons, length_app, length_cons. lia.
Qed.

(** ** More on the two walks *)

Lemma walk_forward_all cap total ls :
  (total + raw_length ls ≤ cap)%Z → walk_forward cap total ls = ls.
Proof.
  revert total. induction ls as [|l ls IH]; intros total Hfit; [done|].
  rewrite raw_length_cons in Hfit. pose proof (raw_length_nonneg ls).
  cbn [walk_forward].
  destruct (Z.gtb_spec (total + Z.of_nat (length l)) cap); [lia|].
  f_equal. apply IH. lia.
Qed.

Lemma walk_backward_all cap ls :
  (raw_length ls ≤ cap)%Z → walk_backward cap ls = ls.
Proof.
  intros Hfit. unfold walk_backward.
  rewrite walk_forward_all by (rewrite raw_length_reverse; lia).
  apply reverse_involutive.
Qed.

Lemma walk_forward_mono cap cap' total ls :
  (cap ≤ cap')%Z →
  walk_forward cap total ls `prefix_of` walk_forward cap' total ls.
Proof.
  intros Hcap. revert total. induction ls as [|l ls IH]; intros total; [done|].
  cbn [walk_forward].
  destruct (Z.gtb_spec (total + Z.of_nat (length l)) cap);
    [apply prefix_nil|].
  destruct (Z.gtb_spec (total + Z.of_nat (length l)) cap'); [lia|].
  by apply prefix_cons.
Qed.

Lemma walk_backward_mono cap cap' ls :
  (cap ≤ cap')%Z → walk_backward cap ls `suffix_of` walk_backward cap' ls.
Proof.
  intros Hcap. unfold walk_backward.
  apply suffix_prefix_reverse. rewrite !reverse_involutive.
  by apply walk_forward_mono.
Qed.

Lemma join_prefix sep ls1 ls2 :
  ls1 `prefix_of` ls2 → join sep ls1 `prefix_of` join sep ls2.
Proof.
  intros [k ->]. rewrite <- (take_app_length ls1 k) at 1.
  apply join_take_prefix.
Qed.

Lemma join_suffix sep ls1 ls2 :
  ls1 `suffix_of` ls2 → join sep ls1 `suffix_of` join sep ls2.
Proof.
  intros [k ->]. rewrite <- (drop_app_length k ls1) at 1.
  apply join_drop_suffix.
Qed.

(** The lines a walk retains are within the cap. *)
Lemma walk_forward_raw_length cap ls :
  (raw_length (walk_forward cap 0 ls) ≤ Z.max 0 cap)%Z.
Proof.
  destruct (walk_forward_spec cap 0 ls) as (m & -> & _ & Hin & _).
  destruct m as [|m]; [rewrite take_0; simpl; lia|].
  specialize (Hin (S m)). lia.
Qed.

Lemma walk_backward_raw_length cap ls :
  (raw_length (walk_backward cap ls) ≤ Z.max 0 cap)%Z.
Proof.
  unfold walk_backward. rewrite raw_length_reverse.
  apply walk_forward_raw_length.
Qed.

Lemma walk_forward_no_LF cap total ls :
  Forall (fun l => LF ∉ l) ls → Forall (fun l => LF ∉ l) (walk_forward cap total ls).
Proof.
  intros Hall. destruct (walk_forward_spec cap total ls) as (m & -> & _).
  by apply Forall_take.
Qed.

Lemma walk_backward_no_LF cap ls :
  Forall (fun l => LF ∉ l) ls → Forall (fun l => LF ∉ l) (walk_backward cap ls).
Proof.
  intros Hall. unfold walk_backward.
  apply Forall_reverse, walk_forward_no_LF, Forall_reverse, Hall.
Qed.

(** ** The text around the cursor, line by line *)

Lemma take_line_start l J k : take (length l + 1 + k) (l ++ LF :: J) = l ++ LF :: take k J.
Proof.
  rewrite take_app_ge by lia.
  replace (length l + 1 + k - length l) with (S k) by lia. done.
Qed.

Lemma drop_line_start l J k : drop (length l + 1 + k) (l ++ LF :: J) = drop k J.
Proof.
  rewrite drop_app_ge by lia.
  replace (length l + 1 + k - length l) with (S k) by lia. done.
Qed.

Lemma no_LF_take (l : jsstring) c : LF ∉ l → LF ∉ take c l.
Proof. intros Hl Hin. apply Hl. eapply elem_of_sublist; [done|apply sublist_take]. Qed.

Lemma no_LF_drop (l : jsstring) c : LF ∉ l → LF ∉ drop c l.
Proof. intros Hl Hin. apply Hl. eapply elem_of_sublist; [done|apply sublist_drop]. Qed.

(** The lines of the text before an offset inside line [n] are the lines
    before [n] and the part of line [n] before the offset; those of the text
    after it are the rest of line [n] and the lines after [n]. *)
Lemma split_lines_at ls n c :
  Forall (fun l => LF ∉ l) ls → n < length ls → c ≤ length (ls !!! n) →
  split_lines (take (line_start ls n + c) (join LF ls))
  = take n ls ++ [take c (ls !!! n)] ∧
  split_lines (drop (line_start ls n + c) (join LF ls))
  = drop c (ls !!! n) :: drop (S n) ls.
Proof.
  intros Hall. revert n.
  induction Hall as [|l [|l' ls] Hl Hls IH]; intros n Hn Hc; [simpl in Hn; lia|..].
  - destruct n as [|n]; [|simpl in Hn; lia]. simpl in *.
    split; apply split_lines_single; [by apply no_LF_take|by apply no_LF_drop].
  - rewrite join_cons. destruct n as [|n].
    + change ((l :: l' :: ls) !!! 0) with l in *.
      rewrite line_start_0, Nat.add_0_l.
      change (take 0 (l :: l' :: ls)) with (@nil jsstring).
      change (drop 1 (l :: l' :: ls)) with (l' :: ls).
      rewrite take_app_le, drop_app_le by lia. split.
      * by apply split_lines_single, no_LF_take.
      * rewrite split_lines_app_LF by (by apply no_LF_drop).
        rewrite split_lines_join; done.
    + rewrite line_start_S, lookup_total_cons_ne_0 in * by done.
      simpl Nat.pred in *. simpl in Hn.
      destruct (IH n ltac:(simpl; lia) Hc) as [Htake Hdrop].
      rewrite <- Nat.add_assoc, take_line_start, drop_line_start.
      rewrite split_lines_app_LF by done. rewrite Htake, Hdrop. done.
Qed.

Lemma offsetAt_line_start d p :
  line p < lineCount d →
  offsetAt d p
  = line_start (doc_lines d) (line p)
    + Nat.min (character p) (length (doc_lines d !!! line p)).
Proof.
  intros Hl. unfold offsetAt, validatePosition. case_decide; [lia|]. done.
Qed.

Section Around.
Variable params : Params.t.
Hypothesis inside :
  line (Params.position params) < lineCount (Params.document params).

Lemma lines_pre_cursor_text :
  lines (pre_cursor_text params)
  = take (line (Params.position params)) (doc_lines (Params.document params))
    ++ [take (cursor_character params) (cursor_line params)].
Proof.
  unfold lines, pre_cursor_text. rewrite completePrefix_take.
  rewrite offsetAt_line_start by done. rewrite <- join_doc_lines.
  apply split_lines_at;
    [apply split_lines_no_LF|exact inside|unfold cursor_character, cursor_line; lia].
Qed.

Lemma lines_post_cursor_text :
  lines (post_cursor_text params)
  = drop (cursor_character params) (cursor_line params)
    :: drop (S (line (Params.position params)))
            (doc_lines (Params.document params)).
Proof.
  unfold lines, post_cursor_text. rewrite completeSuffix_drop.
  rewrite offsetAt_line_start by done. rewrite <- join_doc_lines.
  apply split_lines_at;
    [apply split_lines_no_LF|exact inside|unfold cursor_character, cursor_line; lia].
Qed.
End Around.

(** ** More on what getCurrentDocContext returns *)

Lemma getCurrentDocContext_inv `{Collaborators} (params : Params.t) ctx :
  getCurrentDocContext params = Returns ctx →
  line (Params.position params) < lineCount (Params.document params) ∧
  DocumentContext.prefix ctx
  = truncate_prefix (cursor_offset params) (Params.maxPrefixLength params)
                    (lines (patched_prefix params)) ∧
  DocumentContext.suffix ctx
  = truncate_suffix (Params.maxSuffixLength params)
                    (lines (post_cursor_text params)) ∧
  DocumentContext.currentLinePrefix ctx
  = default [] (last (lines (patched_prefix params))) ∧
  DocumentContext.currentLineSuffix ctx
  = lines (post_cursor_text params) !!! 0.
Proof.
  intros Hret.
  destruct (decide (line (Params.position params)
                    < lineCount (Params.document params))) as [Hl|Hl].
  2: { rewrite getCurrentDocContext_Throws in Hret by lia. done. }
  split; [done|]. revert Hret.
  unfold getCurrentDocContext, patched_prefix, pre_cursor_text,
    post_cursor_text, cursor_offset.
  destruct (patch_prefix _ _ _) as [patched injected].
  destruct (getSemanticContextWithinDocument _ _ _) as [sem|e]; [|done].
  simpl. by intros [= <-].
Qed.

Lemma getCurrentDocContext_inside `{Collaborators} (params : Params.t) :
  line (Params.position params) < lineCount (Params.document params) →
  ∃ ctx, getCurrentDocContext params = Returns ctx.
Proof.
  intros Hl. destruct (getCurrentDocContext_fields params Hl) as (ctx & _ & ? & _).
  by exists ctx.
Qed.

(** X9: getCurrentDocContext throws exactly when the cursor's line is not a
    line of the document, whatever the caps, the character and the selected
    completion are; it is the search for the semantic context that throws, on
    reading the current line. *)
Theorem getCurrentDocContext_throws_iff `{Collaborators} (params : Params.t) :
  let d := Params.document params in
  let position := Params.position params in
  (getCurrentDocContext params = Throws IllegalLine ↔ lineCount d ≤ line position) ∧
  ((∃ ctx, getCurrentDocContext params = Returns ctx) ↔ line position < lineCount d) ∧
  ∀ k,
    (getSemanticContextWithinDocument d position k = Throws IllegalLine
     ↔ lineCount d ≤ line position) ∧
    ((∃ r, getSemanticContextWithinDocument d position k = Returns r)
     ↔ line position < lineCount d).
Proof.
  cbn zeta.
  destruct (decide (line (Params.position params)
                    < lineCount (Params.document params))) as [Hl|Hl].
  - destruct (getCurrentDocContext_fields params Hl) as (ctx & _ & Hret & _).
    destruct (lineAt_inside _ _ Hl) as (currentLine & Hline & _).
    rewrite Hret. split; [split; [done|lia]|]. split; [split; [done|by exists ctx]|].
    intros k. rewrite (getSemanticContextWithinDocument_Returns _ _ _ _ Hline).
    split; [split; [done|lia]|]. split; [done|by eexists].
  - rewrite getCurrentDocContext_Throws by lia.
    split; [split; [lia|done]|]. split; [split; [by intros [? ?]|lia]|].
    intros k. rewrite getSemanticContextWithinDocument_Throws by lia.
    split; [split; [lia|done]|]. split; [by intros [? ?]|lia].
Qed.

(** X10: as the function's documentation says, content that fits is used
    whole, where what counts is the raw length of the lines, the line feeds
    not counted.  When the raw length of the lines after the cursor is
    within maxSuffixLength, and so when the text after the cursor is not
    longer than maxSuffixLength, the suffix is all the text after the
    cursor.  When the raw length of the lines of the (possibly patched) text
    before the cursor is within maxPrefixLength, or the cursor's offset is,
    the prefix is all of that text.  When both sides fit and no completion
    is selected, prefix and suffix together are the whole document. *)
Theorem whole_content_when_it_fits `{Collaborators} (params : Params.t) :
  line (Params.position params) < lineCount (Params.document params) →
  ∃ ctx,
  getCurrentDocContext params = Returns ctx ∧
  let text := getText (Params.document params) in
  let offset := cursor_offset params in
  let before := patched_prefix params in
  let after := drop offset text in
  let maxPrefix := Params.maxPrefixLength params in
  let maxSuffix := Params.maxSuffixLength params in
  ((Z.of_nat (length after) ≤ maxSuffix)%Z →
   (raw_length (lines after) ≤ maxSuffix)%Z) ∧
  ((raw_length (lines after) ≤ maxSuffix)%Z →
   DocumentContext.suffix ctx = after) ∧
  ((raw_length (lines before) ≤ maxPrefix)%Z ∨ (Z.of_nat offset ≤ maxPrefix)%Z →
   DocumentContext.prefix ctx = before) ∧
  (selected params = None →
   before = take offset text ∧
   ((raw_length (lines before) ≤ maxPrefix)%Z
    ∨ (Z.of_nat offset ≤ maxPrefix)%Z →
    (raw_length (lines after) ≤ maxSuffix)%Z →
    DocumentContext.prefix ctx ++ DocumentContext.suffix ctx = text)).
Proof.
  intros [ctx Hret]%getCurrentDocContext_inside. exists ctx. split; [done|].
  apply getCurrentDocContext_inv in Hret as (_ & Hpre & Hsuf & _). cbn zeta.
  unfold post_cursor_text in Hsuf. rewrite completeSuffix_drop in Hsuf.
  fold (cursor_offset params) in Hsuf.
  rewrite truncate_suffix_walk in Hsuf.
  rewrite truncate_prefix_walk in Hpre.
  set (after := drop (cursor_offset params) (getText (Params.document params))) in *.
  assert ((raw_length (lines after) ≤ Params.maxSuffixLength params)%Z →
          DocumentContext.suffix ctx = after) as Hraw.
  { intros Hfit. rewrite Hsuf, walk_forward_all by lia. apply join_lines. }
  assert ((raw_length (lines (patched_prefix params))
           ≤ Params.maxPrefixLength params)%Z
          ∨ (Z.of_nat (cursor_offset params) ≤ Params.maxPrefixLength params)%Z →
          DocumentContext.prefix ctx = patched_prefix params) as Hfront.
  { intros Hfit. rewrite Hpre.
    destruct (Z.gtb_spec (Z.of_nat (cursor_offset params))
                (Params.maxPrefixLength params)); [|apply join_lines].
    destruct Hfit as [Hfit|Hfit]; [|lia].
    rewrite walk_backward_all by done. apply join_lines. }
  split.
  { intros Hfit. pose proof (raw_length_le_join (lines after)) as Hle.
    rewrite join_lines in Hle. lia. }
  split; [done|]. split; [done|].
  intros Hnone.
  assert (patched_prefix params
          = take (cursor_offset params) (getText (Params.document params)))
    as Hbefore.
  { rewrite patched_prefix_none by done.
    unfold pre_cursor_text. by rewrite completePrefix_take. }
  split; [done|].
  intros Hp Hs. rewrite (Hfront Hp), (Hraw Hs), Hbefore. apply take_drop.
Qed.

(** The suffix window is the document text that follows the cursor offset,
    and without a selected completion the prefix window is the document text
    that precedes it. *)
Lemma suffix_follows_cursor (params : Params.t) :
  let text := getText (Params.document params) in
  let suffix := truncate_suffix (Params.maxSuffixLength params)
                                (lines (post_cursor_text params)) in
  drop (cursor_offset params) text
  = suffix ++ drop (cursor_offset params + length suffix) text.
Proof.
  cbn zeta.
  pose proof (truncate_suffix_prefix (Params.maxSuffixLength params)
                (post_cursor_text params)) as [k Hk].
  set (suffix := truncate_suffix _ _) in *.
  unfold post_cursor_text in Hk. rewrite completeSuffix_drop in Hk.
  fold (cursor_offset params) in Hk.
  rewrite <- drop_drop, Hk. by rewrite drop_app_length.
Qed.

Lemma prefix_precedes_cursor (params : Params.t) :
  selected params = None →
  let text := getText (Params.document params) in
  let prefix := truncate_prefix (cursor_offset params)
                  (Params.maxPrefixLength params)
                  (lines (patched_prefix params)) in
  take (cursor_offset params) text
  = take (cursor_offset params - length prefix) text ++ prefix.
Proof.
  intros Hnone. cbn zeta.
  pose proof (truncate_prefix_suffix (cursor_offset params)
                (Params.maxPrefixLength params) (patched_prefix params)) as [k Hk].
  set (prefix := truncate_prefix _ _ _) in *.
  rewrite patched_prefix_none in Hk by done.
  unfold pre_cursor_text in Hk. rewrite completePrefix_take in Hk.
  fold (cursor_offset params) in Hk.
  pose proof (f_equal length Hk) as Hlen.
  rewrite length_app, length_take in Hlen.
  pose proof (offsetAt_le (Params.document params) (Params.position params))
    as Ho. fold (cursor_offset params) in Ho.
  assert (k = take (cursor_offset params - length prefix)
                   (getText (Params.document params))) as Hkeq.
  { transitivity (take (length k) (k ++ prefix)); [by rewrite take_app_length|].
    rewrite <- Hk, take_take. f_equal. lia. }
  by rewrite <- Hkeq.
Qed.

(** X11: the window is one piece of the document around the cursor: the
    suffix is the text that follows the cursor offset in the document, and,
    when no completion is selected, the prefix is the text that precedes it,
    so that the document is what lies before the window, the prefix, the
    suffix and what lies after the window. *)
Theorem window_is_contiguous `{Collaborators} (params : Params.t) :
  line (Params.position params) < lineCount (Params.document params) →
  ∃ ctx,
  getCurrentDocContext params = Returns ctx ∧
  let text := getText (Params.document params) in
  let offset := cursor_offset params in
  let prefix := DocumentContext.prefix ctx in
  let suffix := DocumentContext.suffix ctx in
  drop offset text = suffix ++ drop (offset + length suffix) text ∧
  (selected params = None →
   take offset text = take (offset - length prefix) text ++ prefix ∧
   text = take (offset - length prefix) text ++ prefix ++ suffix
          ++ drop (offset + length suffix) text).
Proof.
  intros [ctx Hret]%getCurrentDocContext_inside. exists ctx. split; [done|].
  apply getCurrentDocContext_inv in Hret as (_ & Hpre & Hsuf & _). cbn zeta.
  pose proof (suffix_follows_cursor params) as Hafter. cbn zeta in Hafter.
  rewrite <- Hsuf in Hafter. split; [done|]. intros Hnone.
  pose proof (prefix_precedes_cursor params Hnone) as Hbefore.
  cbn zeta in Hbefore. rewrite <- Hpre in Hbefore. split; [done|].
  rewrite <- (take_drop (cursor_offset params) (getText (Params.document params)))
    at 1.
  rewrite Hbefore, Hafter at 1. by rewrite <- !(assoc_L (++)).
Qed.

(** X20: reading the context range back gives the window: when no
    completion is selected, the document's text in [contextRange] is the
    prefix followed by the suffix. *)
Theorem contextRange_round_trip `{Collaborators} (params : Params.t) :
  line (Params.position params) < lineCount (Params.document params) →
  selected params = None →
  ∃ ctx,
    getCurrentDocContext params = Returns ctx ∧
    getTextRange (Params.document params) (DocumentContext.contextRange ctx)
    = DocumentContext.prefix ctx ++ DocumentContext.suffix ctx.
Proof.
  intros Hl Hnone.
  destruct (getCurrentDocContext_fields params Hl)
    as (ctx & _ & Hret & _ & Hpre & Hsuf & Hrange & _).
  exists ctx. split; [done|].
  pose proof (suffix_follows_cursor params) as Hafter. cbn zeta in Hafter.
  pose proof (prefix_precedes_cursor params Hnone) as Hbefore.
  cbn zeta in Hbefore.
  pose proof (suffix_window_length params) as Hs.
  pose proof (prefix_window_length params Hnone) as Hp.
  rewrite <- Hpre in Hbefore, Hp. rewrite <- Hsuf in Hafter, Hs.
  set (d := Params.document params) in *.
  set (o := cursor_offset params) in *.
  set (p := DocumentContext.prefix ctx) in *.
  set (s := DocumentContext.suffix ctx) in *.
  assert (o ≤ length (getText d)) as Ho by apply offsetAt_le.
  rewrite Hrange. unfold new_Range, positionAt.
  rewrite position_in_monotone by lia.
  unfold getTextRange. cbn [range_start range_end].
  fold (positionAt d (Z.of_nat o - Z.of_nat (length p))).
  fold (positionAt d (Z.of_nat o + Z.of_nat (length s))).
  rewrite !offsetAt_positionAt.
  replace (Nat.min (Z.to_nat (Z.max 0 (Z.of_nat o - Z.of_nat (length p))))
                   (length (getText d))) with (o - length p) by lia.
  replace (Nat.min (Z.to_nat (Z.max 0 (Z.of_nat o + Z.of_nat (length s))))
                   (length (getText d))) with (o + length s) by lia.
  replace (o + length s - (o - length p)) with (length p + length s) by lia.
  assert (drop (o - length p) (getText d)
          = p ++ s ++ drop (o + length s) (getText d)) as ->.
  { rewrite <- (take_drop o (getText d)) at 1.
    rewrite Hbefore, Hafter, <- (assoc_L (++)).
    rewrite drop_app_length'; [done|]. rewrite length_take. lia. }
  rewrite (assoc_L (++)), <- length_app. by rewrite take_app_length.
Qed.

(** X12: the caps bound the window up to its line feeds: of the suffix at
    most maxSuffixLength code units are not line feeds, and, when the
    prefix is truncated or no completion is selected, of the prefix at most
    maxPrefixLength; so each window is at most its cap plus the number of
    line feeds in it. *)
Theorem window_within_caps `{Collaborators} (params : Params.t) :
  line (Params.position params) < lineCount (Params.document params) →
  ∃ ctx,
  getCurrentDocContext params = Returns ctx ∧
  (Z.of_nat (visible_length (DocumentContext.suffix ctx))
   ≤ Z.max 0 (Params.maxSuffixLength params))%Z ∧
  ((Z.of_nat (cursor_offset params) > Params.maxPrefixLength params)%Z ∨
   selected params = None →
   (Z.of_nat (visible_length (DocumentContext.prefix ctx))
    ≤ Z.max 0 (Params.maxPrefixLength params))%Z).
Proof.
  intros [ctx Hret]%getCurrentDocContext_inside. exists ctx. split; [done|].
  apply getCurrentDocContext_inv in Hret as (_ & Hpre & Hsuf & _).
  rewrite Hsuf, truncate_suffix_walk, Hpre, truncate_prefix_walk. split.
  - rewrite visible_length_join by apply walk_forward_no_LF, split_lines_no_LF.
    apply walk_forward_raw_length.
  - intros Hcase.
    destruct (Z.gtb_spec (Z.of_nat (cursor_offset params))
                (Params.maxPrefixLength params)) as [Hgt|Hle].
    + rewrite visible_length_join
        by apply walk_backward_no_LF, split_lines_no_LF.
      apply walk_backward_raw_length.
    + destruct Hcase as [?|Hnone]; [lia|].
      rewrite join_lines, patched_prefix_none by done.
      pose proof (visible_length_le (pre_cursor_text params)) as Hvis.
      unfold pre_cursor_text in *. rewrite completePrefix_length in Hvis.
      unfold cursor_offset in *. lia.
Qed.

(** X13: greater caps give greater windows: with a greater maxSuffixLength
    the suffix extends the old suffix, with a greater maxPrefixLength the
    prefix extends the old prefix to the left. *)
Theorem window_grows_with_caps `{Collaborators} (params : Params.t)
    (maxPrefix' maxSuffix' : Z) :
  line (Params.position params) < lineCount (Params.document params) →
  (Params.maxPrefixLength params ≤ maxPrefix')%Z →
  (Params.maxSuffixLength params ≤ maxSuffix')%Z →
  ∃ ctx ctx',
    getCurrentDocContext params = Returns ctx ∧
    getCurrentDocContext (with_caps params maxPrefix' maxSuffix') = Returns ctx' ∧
    DocumentContext.suffix ctx `prefix_of` DocumentContext.suffix ctx' ∧
    DocumentContext.prefix ctx `suffix_of` DocumentContext.prefix ctx'.
Proof.
  intros Hl HP HS.
  destruct (getCurrentDocContext_inside params Hl) as [ctx Hret].
  destruct (getCurrentDocContext_inside (with_caps params maxPrefix' maxSuffix') Hl)
    as [ctx' Hret'].
  exists ctx, ctx'. split; [done|]. split; [done|].
  apply getCurrentDocContext_inv in Hret as (_ & Hpre & Hsuf & _).
  apply getCurrentDocContext_inv in Hret' as (_ & Hpre' & Hsuf' & _).
  rewrite Hpre, Hsuf, Hpre', Hsuf'.
  change (post_cursor_text (with_caps params maxPrefix' maxSuffix'))
    with (post_cursor_text params).
  change (patched_prefix (with_caps params maxPrefix' maxSuffix'))
    with (patched_prefix params).
  change (cursor_offset (with_caps params maxPrefix' maxSuffix'))
    with (cursor_offset params).
  cbn [with_caps Params.maxPrefixLength Params.maxSuffixLength]. split.
  - rewrite !truncate_suffix_walk. by apply join_prefix, walk_forward_mono.
  - rewrite (truncate_prefix_walk _ maxPrefix').
    destruct (Z.gtb_spec (Z.of_nat (cursor_offset params)) maxPrefix').
    + rewrite truncate_prefix_walk.
      destruct (Z.gtb_spec (Z.of_nat (cursor_offset params))
                  (Params.maxPrefixLength params)); [|lia].
      by apply join_suffix, walk_backward_mono.
    + rewrite join_lines. apply truncate_prefix_suffix.
Qed.

(** X14: the two fields for the cursor's line hold what their comments say:
    [currentLineSuffix] is the text after the cursor on its line and, when no
    completion is selected, [currentLinePrefix] is the text before the cursor
    on its line; together they are the line. *)
Theorem current_line_parts `{Collaborators} (params : Params.t) :
  line (Params.position params) < lineCount (Params.document params) →
  ∃ ctx,
  getCurrentDocContext params = Returns ctx ∧
  DocumentContext.currentLineSuffix ctx
  = drop (cursor_character params) (cursor_line params) ∧
  (selected params = None →
   DocumentContext.currentLinePrefix ctx
   = take (cursor_character params) (cursor_line params) ∧
   DocumentContext.currentLinePrefix ctx ++ DocumentContext.currentLineSuffix ctx
   = cursor_line params).
Proof.
  intros Hl. destruct (getCurrentDocContext_inside params Hl) as [ctx Hret].
  exists ctx. split; [done|].
  apply getCurrentDocContext_inv in Hret as (_ & _ & _ & Hclp & Hcls).
  rewrite Hcls, Hclp, lines_post_cursor_text by done. split; [done|].
  intros Hnone. rewrite patched_prefix_none, lines_pre_cursor_text by done.
  rewrite last_snoc. simpl. split; [done|]. apply take_drop.
Qed.

(** X15: how a selected completion is spliced in.  When its range starts [n]
    characters before the cursor, the patched prefix is the text before the
    cursor without its last [n] characters, followed by the completion's
    text.  When its range starts at the cursor, [slice(0, 0)] keeps nothing
    of the text before the cursor: the patched prefix is the completion's
    text alone.  In both cases the injected prefix is what of the patched
    prefix lies past the length of the text before the cursor. *)
Theorem selected_completion_splice `{Collaborators} (params : Params.t) info :
  line (Params.position params) < lineCount (Params.document params) →
  selected params = Some info →
  ∃ ctx,
  getCurrentDocContext params = Returns ctx ∧
  let before := pre_cursor_text params in
  let start := character (range_start (range info)) in
  let cursor := character (Params.position params) in
  (start < cursor →
   patched_prefix params
   = take (length before - (cursor - start)) before ++ text info) ∧
  (start = cursor → patched_prefix params = text info) ∧
  (cursor < start →
   patched_prefix params = take (start - cursor) before ++ text info) ∧
  DocumentContext.injectedPrefix ctx
  = (if decide (length (patched_prefix params) ≤ length before) then None
     else Some (drop (length before) (patched_prefix params))).
Proof.
  intros Hl Hsel.
  destruct (getCurrentDocContext_fields params Hl)
    as (ctx & _ & Hret & _ & _ & _ & _ & Hinj & _).
  exists ctx. split; [done|]. cbn zeta.
  unfold selected in Hsel. rewrite Hinj.
  unfold patched_prefix, patch_prefix. rewrite Hsel. cbn [fst snd].
  rewrite slice_0. unfold slice_index.
  set (before := pre_cursor_text params).
  set (start := character (range_start (range info))).
  set (cursor := character (Params.position params)).
  split; [|split; [|split]].
  - intros Hlt. destruct (Z.ltb_spec (Z.of_nat start - Z.of_nat cursor) 0); [|lia].
    do 2 f_equal. lia.
  - intros Heq. destruct (Z.ltb_spec (Z.of_nat start - Z.of_nat cursor) 0); [lia|].
    replace (Nat.min _ _) with 0 by lia. done.
  - intros Hgt. destruct (Z.ltb_spec (Z.of_nat start - Z.of_nat cursor) 0); [lia|].
    f_equal. destruct (decide (start - cursor ≤ length before)).
    + f_equal. lia.
    + rewrite Nat.min_r by lia. rewrite firstn_all. by rewrite take_ge by lia.
  - set (patched := take _ before ++ text info).
    unfold slice_from. rewrite slice_index_length.
    destruct (decide (length patched ≤ length before)) as [Hle|Hgt].
    + rewrite Nat.min_r, drop_all by lia. by case_decide.
    + rewrite Nat.min_l by lia. case_decide as Hnil; [|done].
      apply (f_equal length) in Hnil. rewrite length_drop in Hnil.
      simpl in Hnil. lia.
Qed.

(** X16: a cursor character past the end of its line is the end of the
    line: when no completion is selected, the call returns the same for
    every character that is at or past the end of the cursor's line. *)
Theorem cursor_past_line_end `{Collaborators} (params : Params.t) (c : nat) :
  selected params = None →
  length (cursor_line params) ≤ character (Params.position params) →
  length (cursor_line params) ≤ c →
  getCurrentDocContext
    (at_position params {| line := line (Params.position params);
                           character := c |})
  = getCurrentDocContext params.
Proof.
  intros Hnone Hc Hc'.
  set (d := Params.document params).
  set (p := Params.position params).
  set (p' := {| line := line p; character := c |}).
  assert (offsetAt d p' = offsetAt d p) as Hoff.
  { unfold offsetAt, validatePosition. cbn [line character p'].
    case_decide; [done|]. unfold cursor_line in *. fold d p in Hc, Hc'.
    f_equal. cbn [character]. lia. }
  unfold getCurrentDocContext.
  cbn [at_position Params.document Params.position Params.maxPrefixLength
       Params.maxSuffixLength Params.enableExtendedTriggers
       Params.syntacticTriggers Params.context].
  fold d p p'. unfold selected in Hnone.
  rewrite !patch_prefix_none by done.
  rewrite !completePrefix_take, !completeSuffix_drop, Hoff.
  replace (getSemanticContextWithinDocument d p' 5)
    with (getSemanticContextWithinDocument d p 5) by done.
  done.
Qed.

(** X17: the window contains the cursor's line parts whenever they fit: the
    prefix ends with [currentLinePrefix] when the prefix is not truncated
    or that part is within maxPrefixLength, and the suffix starts with
    [currentLineSuffix] when that part is within maxSuffixLength. *)
Theorem window_holds_current_line `{Collaborators} (params : Params.t) :
  line (Params.position params) < lineCount (Params.document params) →
  ∃ ctx,
  getCurrentDocContext params = Returns ctx ∧
  ((Z.of_nat (cursor_offset params) ≤ Params.maxPrefixLength params)%Z ∨
   (Z.of_nat (length (DocumentContext.currentLinePrefix ctx))
    ≤ Params.maxPrefixLength params)%Z →
   DocumentContext.currentLinePrefix ctx `suffix_of` DocumentContext.prefix ctx) ∧
  ((Z.of_nat (length (DocumentContext.currentLineSuffix ctx))
    ≤ Params.maxSuffixLength params)%Z →
   DocumentContext.currentLineSuffix ctx `prefix_of` DocumentContext.suffix ctx).
Proof.
  intros [ctx Hret]%getCurrentDocContext_inside. exists ctx. split; [done|].
  apply getCurrentDocContext_inv in Hret as (_ & Hpre & Hsuf & Hclp & Hcls).
  rewrite Hpre, Hsuf, Hclp, Hcls, truncate_prefix_walk, truncate_suffix_walk.
  split.
  - pose proof (split_lines_nonempty (patched_prefix params)) as Hne.
    unfold lines.
    destruct (split_lines (patched_prefix params)) as [|l ls _] using rev_ind;
      [done|].
    rewrite last_snoc. simpl. intros Hcase.
    assert (∀ ks : list jsstring, l `suffix_of` join LF (ks ++ [l])) as Hlast.
    { intros ks. destruct (decide (ks = [])) as [->|Hks]; [done|].
      rewrite join_app by done. simpl. apply suffix_app_r. by apply suffix_cons_r. }
    destruct (Z.gtb_spec (Z.of_nat (cursor_offset params))
                (Params.maxPrefixLength params)); [|apply Hlast].
    destruct Hcase as [?|Hfit]; [lia|].
    unfold walk_backward. rewrite reverse_snoc. cbn [walk_forward].
    destruct (Z.gtb_spec (0 + Z.of_nat (length l))
                (Params.maxPrefixLength params)); [lia|].
    rewrite reverse_cons. apply Hlast.
  - pose proof (split_lines_nonempty (post_cursor_text params)) as Hne.
    unfold lines.
    destruct (split_lines (post_cursor_text params)) as [|l ls]; [done|].
    change ((l :: ls) !!! 0) with l. intros Hfit. cbn [walk_forward].
    destruct (Z.gtb_spec (0 + Z.of_nat (length l))
                (Params.maxSuffixLength params)); [lia|].
    destruct (walk_forward _ _ ls); [done|]. rewrite join_cons.
    by apply prefix_app_r.
Qed.

(** X18: the score returned with a block is the block's own aggregate score
    and a number, never NaN; for a window of at least one line it is 0
    exactly when the block is empty. *)
Theorem getSemanticContextWithinDocument_score d position k currentLine :
  doc_lines d !! line position = Some currentLine →
  ∃ result,
  getSemanticContextWithinDocument d position k = Returns result ∧
  similarityScore result
  = aggregateSimilarityScore currentLine (semanticContext result) ∧
  is_number (similarityScore result) ∧
  (0 < k → (semanticContext result = [] ↔ similarityScore result = 0%float)).
Proof.
  intros Hl. eexists.
  split; [by apply getSemanticContextWithinDocument_Returns|].
  unfold candidates.
  destruct (scanned_all d currentLine k
              (Z.to_nat (Z.of_nat (lineCount d) - Z.of_nat k + 1)))
    as [[-> _]|(i & Hi & -> & Hpos & _)]; simpl.
  - split; [done|]. split; [apply zero_is_number|done].
  - apply candidates_spec in Hi. split; [done|].
    split; [by apply gt_is_number in Hpos as []|].
    intros Hk. pose proof (block_at_length d i k Hi) as Hlen. split.
    + intros Hnil. rewrite Hnil in Hlen. simpl in Hlen. lia.
    + intros H0. rewrite H0 in Hpos. by vm_compute in Hpos.
Qed.

(** ** Lengths as binary64 numbers *)

Lemma digits2_pos_lower p : (2 ^ (Z.pos (digits2_pos p) - 1) ≤ Z.pos p)%Z.
Proof.
  induction p as [p IH|p IH|]; [| |done]; simpl digits2_pos;
    rewrite Pos2Z.inj_succ;
    replace (Z.succ (Z.pos (digits2_pos p)) - 1)%Z
      with (Z.succ (Z.pos (digits2_pos p) - 1))%Z by lia;
    rewrite Z.pow_succ_r by lia; lia.
Qed.

Lemma digits2_pos_shift p d :
  digits2_pos (Pos.iter xO p d) = (digits2_pos p + d)%positive.
Proof.
  induction d as [|d IH] using Pos.peano_ind.
  - simpl. lia.
  - rewrite Pos.iter_succ. simpl. rewrite IH. lia.
Qed.

(** A positive integer below 2^53 is a finite binary64 number. *)
Lemma binary_normalize_finite p :
  (Z.pos p < 2 ^ 53)%Z →
  ∃ m e, binary_normalize prec emax (Z.pos p) 0 false = S754_finite false m e.
Proof.
  intros Hp. pose proof (digits2_pos_lower p) as Hlow.
  assert (Z.pos (digits2_pos p) ≤ 53)%Z as Hdigits.
  { destruct (Z.le_gt_cases (Z.pos (digits2_pos p)) 53) as [|Hgt]; [done|].
    assert (2 ^ 53 ≤ 2 ^ (Z.pos (digits2_pos p) - 1))%Z
      by (apply Z.pow_le_mono_r; lia). lia. }
  unfold binary_normalize, binary_round.
  assert (fexp prec emax (Z.pos (digits2_pos p) + 0)
          = (Z.pos (digits2_pos p) - 53)%Z) as ->.
  { unfold fexp, emin, prec, emax. lia. }
  assert (∃ mz ez,
            shl_align p 0 (Z.pos (digits2_pos p) - 53) = (mz, ez) ∧
            (Z.pos (digits2_pos mz) + ez = Z.pos (digits2_pos p))%Z ∧
            ez = (Z.pos (digits2_pos p) - 53)%Z) as (mz & ez & -> & Hmz & Hez).
  { unfold shl_align. rewrite Z.sub_0_r.
    destruct (Z.pos (digits2_pos p) - 53)%Z as [|q|q] eqn:Hq; [|lia|].
    - exists p, 0%Z. split; [done|lia].
    - exists (Pos.iter xO p q), (Z.neg q). split; [done|].
      rewrite digits2_pos_shift. lia. }
  unfold binary_round_aux, shr_fexp. cbn [Zdigits2].
  assert (fexp prec emax (Z.pos (digits2_pos mz) + ez) - ez = 0)%Z as ->.
  { unfold fexp, emin, prec, emax. lia. }
  cbn [shr_record_of_loc shr shr_m loc_of_shr_record round_nearest_even Zdigits2].
  assert (fexp prec emax (Z.pos (digits2_pos mz) + ez) - ez = 0)%Z as ->.
  { unfold fexp, emin, prec, emax. lia. }
  cbn [shr shr_m]. exists mz, ez.
  destruct (Z.leb_spec ez (emax - prec)) as [|Hbig]; [done|].
  unfold emax, prec in Hbig. lia.
Qed.

Lemma of_nat_finite n :
  0 < n → (Z.of_nat n < 2 ^ 53)%Z →
  ∃ m e, Prim2SF (of_nat n) = S754_finite false m e.
Proof.
  intros Hpos Hsmall. unfold of_nat. rewrite of_uint63_spec.
  rewrite Uint63.of_Z_spec, Z.mod_small.
  - destruct (Z.of_nat n) as [|p|p] eqn:Hn; [lia| |lia].
    by apply binary_normalize_finite.
  - change Uint63.wB with (2 ^ 63)%Z. lia.
Qed.

Lemma of_nat_0 : of_nat 0 = 0%float.
Proof. by vm_compute. Qed.

Lemma div_zero_finite (x : number) s m e :
  Prim2SF x = S754_finite s m e → (0 / x)%float = (if s then -0 else 0)%float.
Proof.
  intros Hx. apply Prim2SF_inj. rewrite div_spec, Hx.
  by destruct s; vm_compute.
Qed.

Lemma div_self_finite (x : number) s m e :
  Prim2SF x = S754_finite s m e → (x / x)%float = 1%float.
Proof.
  intros Hx. apply Prim2SF_inj. rewrite div_spec, Hx. apply SF64div_self.
Qed.

(** X19: a non-empty line is fully similar to itself and not at all to the
    empty line: the scores are exactly 1 and 0 (for every length a string can
    have, that is below 2^53). *)
Theorem semanticSimilarity_self (a : jsstring) :
  a ≠ [] → (Z.of_nat (length a) < 2 ^ 53)%Z →
  semanticSimilarity a a = 1%float ∧
  semanticSimilarity a [] = 0%float ∧
  semanticSimilarity [] a = 0%float.
Proof.
  intros Ha Hsmall.
  assert (0 < length a) as Hlen by (destruct a; [done|simpl; lia]).
  destruct (of_nat_finite _ Hlen Hsmall) as (m & e & Hfin).
  assert (levenshteinDistance a a = 0) as Hself.
  { apply Nat.le_0_r, levenshteinDistance_le_edits. constructor. }
  unfold semanticSimilarity. rewrite Hself, Nat.max_id, of_nat_0.
  rewrite (div_zero_finite _ _ _ _ Hfin).
  split; [by vm_compute|].
  assert (levenshteinDistance a [] = length a) as ->.
  { unfold levenshteinDistance. case_decide; [lia|]. by case_decide. }
  assert (levenshteinDistance [] a = length a) as -> by done.
  simpl length. rewrite Nat.max_0_r, Nat.max_0_l.
  rewrite (div_self_finite _ _ _ _ Hfin). split; by vm_compute.
Qed.

(** ** The further properties on the example calls *)

Lemma levenshteinDistance_table_witness :
  cell (populate_matrix (js "kitten") (js "sitting")
          (init_matrix (length (js "kitten")) (length (js "sitting")))) 3 2
  = levenshteinDistance (js "ki") (js "sit").
Proof.
  apply (levenshteinDistance_table (js "kitten") (js "sitting") 3 2);
    vm_compute; lia.
Defined.

Lemma getSemanticContextWithinDocument_empty_line_witness :
  ∃ ctx,
    @getCurrentDocContext silent on_empty_line = Returns ctx ∧
    DocumentContext.semanticContext ctx = [].
Proof.
  destruct (@getSemanticContextWithinDocument_empty_line silent on_empty_line)
    as [_ Hctx]; [reflexivity|exact Hctx].
Defined.

Lemma semanticSimilarity_empty_empty_witness :
  gt (aggregateSimilarityScore [] [js "foo"; []]) 0%float = false.
Proof.
  destruct (semanticSimilarity_empty_empty [js "foo"; []] 0%float)
    as (_ & _ & Hgt & _); [|exact Hgt].
  apply list_elem_of_In. vm_compute. tauto.
Defined.

(** Before the cursor are [foo] and [ba], after it [r], an empty line,
    [foo] and [qux]: with caps of 5 and 7 both sides fit by raw length, and
    the window is the whole of the five lines. *)
Lemma whole_content_when_it_fits_witness :
  ∃ ctx,
    @getCurrentDocContext silent fitting_by_raw_length = Returns ctx ∧
    DocumentContext.prefix ctx = js "foo" ++ [LF] ++ js "ba" ∧
    DocumentContext.suffix ctx
    = drop (cursor_offset fitting_by_raw_length) (getText five_lines) ∧
    DocumentContext.prefix ctx ++ DocumentContext.suffix ctx
    = getText five_lines.
Proof.
  destruct (@whole_content_when_it_fits silent fitting_by_raw_length)
    as (ctx & Hret & _ & Hsuffix & Hprefix & Hwhole); [vm_compute; lia|].
  exists ctx. split; [exact Hret|].
  split; [apply Hprefix; left; vm_compute; discriminate|].
  split; [apply Hsuffix; vm_compute; discriminate|].
  destruct Hwhole as [_ Hdoc]; [reflexivity|].
  apply Hdoc; [left|]; vm_compute; discriminate.
Defined.

Lemma window_is_contiguous_witness :
  ∃ ctx,
    @getCurrentDocContext silent in_five_lines = Returns ctx ∧
    getText five_lines
    = js "foo" ++ [LF] ++ DocumentContext.prefix ctx
      ++ DocumentContext.suffix ctx ++ [LF] ++ js "qux".
Proof.
  destruct (@window_is_contiguous silent in_five_lines)
    as (ctx & Hret & _ & Hwhole); [vm_compute; lia|].
  exists ctx. split; [exact Hret|].
  destruct Hwhole as [_ Hdoc]; [reflexivity|].
  vm_compute in Hret. injection Hret as <-. exact Hdoc.
Defined.

Lemma window_within_caps_witness :
  ∃ ctx,
    @getCurrentDocContext silent in_five_lines = Returns ctx ∧
    (Z.of_nat (visible_length (DocumentContext.suffix ctx)) ≤ 4)%Z ∧
    (Z.of_nat (visible_length (DocumentContext.prefix ctx)) ≤ 4)%Z.
Proof.
  destruct (@window_within_caps silent in_five_lines)
    as (ctx & Hret & Hsuf & Hpre); [vm_compute; lia|].
  exists ctx. split; [exact Hret|]. split; [exact Hsuf|].
  apply Hpre. right. reflexivity.
Defined.

Lemma window_grows_with_caps_witness :
  ∃ ctx ctx',
    @getCurrentDocContext silent in_five_lines = Returns ctx ∧
    @getCurrentDocContext silent (with_caps in_five_lines 10 10) = Returns ctx' ∧
    DocumentContext.suffix ctx `prefix_of` DocumentContext.suffix ctx' ∧
    DocumentContext.prefix ctx `suffix_of` DocumentContext.prefix ctx'.
Proof.
  apply (@window_grows_with_caps silent in_five_lines 10 10);
    vm_compute; [lia|discriminate..].
Defined.

Lemma current_line_parts_witness :
  ∃ ctx,
    @getCurrentDocContext silent in_five_lines = Returns ctx ∧
    DocumentContext.currentLinePrefix ctx = js "ba" ∧
    DocumentContext.currentLineSuffix ctx = js "r".
Proof.
  destruct (@current_line_parts silent in_five_lines)
    as (ctx & Hret & Hafter & Hbefore); [vm_compute; lia|].
  exists ctx. split; [exact Hret|].
  destruct Hbefore as [Hpre _]; [reflexivity|].
  split; [exact Hpre|exact Hafter].
Defined.

Lemma selected_completion_splice_witness :
  ∃ ctx,
    @getCurrentDocContext silent completing_a = Returns ctx ∧
    patched_prefix completing_a = js "abc" ∧
    DocumentContext.injectedPrefix ctx = Some (js "bc").
Proof.
  destruct (@selected_completion_splice silent completing_a
              {| range := new_Range {| line := 0; character := 0 |}
                                    {| line := 0; character := 1 |};
                 text := js "abc" |})
    as (ctx & Hret & Hbefore & _ & _ & Hinj); [vm_compute; lia|reflexivity|].
  exists ctx. split; [exact Hret|].
  split; [apply Hbefore; vm_compute; lia|exact Hinj].
Defined.

Lemma cursor_past_line_end_witness :
  @getCurrentDocContext silent
    (at_position at_line_end {| line := 1; character := 9 |})
  = @getCurrentDocContext silent at_line_end.
Proof.
  apply (@cursor_past_line_end silent at_line_end 9);
    [reflexivity|vm_compute; lia..].
Defined.

Lemma window_holds_current_line_witness :
  ∃ ctx,
    @getCurrentDocContext silent in_five_lines = Returns ctx ∧
    DocumentContext.currentLinePrefix ctx `suffix_of` DocumentContext.prefix ctx ∧
    DocumentContext.currentLineSuffix ctx `prefix_of` DocumentContext.suffix ctx.
Proof.
  destruct (@window_holds_current_line silent in_five_lines)
    as (ctx & Hret & Hpre & Hsuf); [vm_compute; lia|].
  exists ctx. split; [exact Hret|].
  vm_compute in Hret. injection Hret as <-.
  split; [apply Hpre; right|apply Hsuf]; vm_compute; discriminate.
Defined.

Lemma getSemanticContextWithinDocument_score_witness :
  ∃ result,
    getSemanticContextWithinDocument five_lines {| line := 0; character := 3 |} 2
    = Returns result ∧
    similarityScore result
    = aggregateSimilarityScore (js "foo") (semanticContext result).
Proof.
  destruct (getSemanticContextWithinDocument_score
              five_lines {| line := 0; character := 3 |} 2 (js "foo"))
    as (result & Hret & Hscore & _); [reflexivity|].
  exists result. split; [exact Hret|exact Hscore].
Defined.

Lemma semanticSimilarity_self_witness :
  semanticSimilarity (js "foo") (js "foo") = 1%float.
Proof.
  apply (semanticSimilarity_self (js "foo")); [discriminate|vm_compute; reflexivity].
Defined.

Lemma contextRange_round_trip_witness :
  ∃ ctx,
    @getCurrentDocContext silent in_five_lines = Returns ctx ∧
    getTextRange five_lines (DocumentContext.contextRange ctx)
    = DocumentContext.prefix ctx ++ DocumentContext.suffix ctx.
Proof.
  apply (@contextRange_round_trip silent in_five_lines);
    [vm_compute; lia|reflexivity].
Defined.
